(** * award_force_daily_export: a shallow embedding and its properties

    The development follows [award_force_daily_export.py] section by
    section: constants, the paginated fetcher [cf_get_all], the region
    classifier [chapter_to_region], data collection ([fetch_chapters],
    [gather_entries], [build_counts]), workbook creation and Telegram
    delivery, and [main].

    Conventions of the embedding.
    - A Python [str] is a [string]: the bytes of its UTF-8 encoding (a
      lone surrogate is encoded like any other code point).  Comparison of
      strings is the lexicographic comparison of their bytes, which on
      UTF-8 is the order of the code points Python compares.
    - [str.lower] follows the case tables of Unicode, which are no part of
      the program.  It is a field of the environment, [str_lower]; what is
      known of it on ASCII strings is [lower_on_ascii].
    - Python integers that only count are [nat].
    - Everything the program does to the outside world (HTTP requests, log
      records, the workbook, the upload) is an [Event] appended to a
      [Trace]; what the outside world answers is read from an [Env].
    - The [while url:] loop of [cf_get_all] has no bound.  The embedding
      gives it fuel: a fetch that needs more iterations than its fuel ends
      as [OutOfFuel], which no [except] catches. *)

From Stdlib Require Import Ascii String List Sorting.Sorted Permutation Lia.
From stdpp Require Import gmap strings list fin_maps.

Local Open Scope string_scope.
Local Open Scope list_scope.
Local Open Scope stdpp_scope.
Local Open Scope nat_scope.

(** ** Strings *)

(** [c.lower()] for one ASCII character: 'A'..'Z' move by 32. *)
Definition lower_char (c : ascii) : ascii :=
  let n := nat_of_ascii c in
  if Nat.leb 65 n && Nat.leb n 90 then ascii_of_nat (n + 32) else c.

(** What [s.lower()] is when [s] has ASCII characters only. *)
Fixpoint ascii_lower (s : string) : string :=
  match s with
  | EmptyString => EmptyString
  | String c s' => String (lower_char c) (ascii_lower s')
  end.

(** [s.isascii()] *)
Fixpoint is_ascii (s : string) : bool :=
  match s with
  | EmptyString => true
  | String c s' => Nat.ltb (nat_of_ascii c) 128 && is_ascii s'
  end.

(** ** 1. Constants *)

Definition BASE_URL : string := "https://api.us.cr4ce.com".

(** [CATEGORY_SLUGS["13_17"]] and [CATEGORY_SLUGS["above18"]] *)
Definition CATEGORY_13_17 : string := "ZLgyzemp".
Definition CATEGORY_above18 : string := "Kgwrlowa".

(** [REGION_MAP]: a dict literal, kept as its items in insertion order,
    the order [REGION_MAP.items()] iterates in. *)
Definition REGION_MAP : list (string * list string) :=
  [ ("AMR", [ "argentina"; "brazil"; "canada"; "costa rica";
              "mexico"; "united states of america" ]);
    ("PRC", [ "china" ]);
    ("APJ", [ "bangladesh"; "india"; "indonesia"; "japan"; "malaysia";
              "singapore"; "south korea"; "taiwan"; "thailand";
              "vietnam"; "australia"; "new zealand" ]) ].

(** ** 3. Helper functions: the region classifier *)

(** The [for region, countries in REGION_MAP.items()] loop of
    [chapter_to_region]: the first region whose list has [lc] as an
    element, if any. *)
Fixpoint first_region (lc : string) (items : list (string * list string))
  : option string :=
  match items with
  | [] => None
  | (region, countries) :: rest =>
      if bool_decide (lc ∈ countries) then Some region
      else first_region lc rest
  end.

(** The five tags the classifier can return. *)
Definition REGION_TAGS : list string := [ "AMR"; "APJ"; "EMEA"; "Other"; "PRC" ].

(** ** The outside world: requests, responses, log records *)

(** The exceptions the program can meet.  All of them derive from Python's
    [Exception], so the [except Exception] of [main] catches every one. *)
Inductive Exn :=
| HTTPError (status_code : nat)   (* r.raise_for_status() *)
| Timeout                         (* requests.get / requests.post, timeout= *)
| ConnectionError                 (* requests.get / requests.post *)
| JSONDecodeError                 (* r.json() *)
| KeyError (key : string)         (* d[key] on a dict without that key *)
| OSError (detail : string).      (* open(), DataFrame.to_excel() *)

(** A record of a [data] batch: a JSON object of one of the two shapes the
    program reads.  [ch["slug"]], [ch["name"]["en_GB"]] for a chapter;
    [e["chapter"]["slug"]], [e["status"]] for an entry. *)
Inductive Record :=
| ChapterRecord (slug name_en_GB : string)
| EntryRecord (chapter_slug status : string).

(** The value found under ["next_page_url"] in a response body.  The API
    gives a URL there or nothing; a truthy value that is not a string is
    outside the model. *)
Inductive NextPage :=
| NextAbsent                 (* no such key: body.get gives None *)
| NextNull                   (* JSON null *)
| NextUrl (u : string)       (* a JSON string, possibly empty *)
| NextFalsy.                 (* any other falsy value: false, 0, [], {} *)

Record Body := {
  data : option (list Record);          (* None: the body has no "data" *)
  next_page_url : NextPage;
}.

Inductive ParamVal := PStr (s : string) | PInt (n : nat).
Abbreviation Params := (list (string * ParamVal)).

(** What [requests.get] does: it raises, or it returns a response with a
    status code whose [.json()] gives a body or raises. *)
Inductive Response :=
| RequestFails (e : Exn)
| Resp (status_code : nat) (json : option Body).

(** What [requests.post] does. *)
Inductive PostResponse :=
| PostFails (e : Exn)
| PostResp (status_code : nat) (text : string).

(** [Response.raise_for_status] raises on 4xx and 5xx; [Response.ok] is
    true exactly when it does not. *)
Definition is_error_status (status_code : nat) : bool :=
  Nat.leb 400 status_code && Nat.ltb status_code 600.

Definition ok (status_code : nat) : bool := negb (is_error_status status_code).

(** A [pathlib.Path]: the directory part and the final component [.name]. *)
Record Path := { parent : string; name : string }.

(** ChapterCounts: the dict [{"13_sub": _, "13_prog": _, "18_sub": _,
    "18_prog": _}] of one chapter. *)
Record Counts := {
  c13_sub : nat; c13_prog : nat; c18_sub : nat; c18_prog : nat;
}.

(** The four keys of a [Counts] dict. *)
Inductive CountKey := K13_sub | K13_prog | K18_sub | K18_prog.

(** The value of a chapter in [chapters]: [{"name": _, "region": _}]. *)
Record Meta := { meta_name : string; meta_region : string }.

(** One row of the report; the fields are the eight columns. *)
Record Row := {
  No : nat;
  Region : string;
  Chapter_Name : string;
  Y13_Submitted : nat;
  Y13_In_Progress : nat;
  Y18_Submitted : nat;
  Y18_In_Progress : nat;
  Total : nat;
}.

Inductive Level := INFO | ERROR.

(** The log records of the program: format string and arguments. *)
Inductive Msg :=
| MsgLoaded (n : nat)                 (* "Loaded %d chapters" *)
| MsgPulling (category_slug : string) (* "Pulling entries for category %s …" *)
| MsgTelegramMissing     (* "BOT_TOKEN or TELEGRAM_CHAT_ID missing – not sending to Telegram." *)
| MsgSent (file_name chat_id : string)  (* "Sent %s to Telegram chat %s" *)
| MsgUploadFailed (text : string)     (* "Telegram upload failed: %s" *)
| MsgKeyMissing                       (* "CF_API_KEY is missing. Aborting." *)
| MsgRunStart                         (* "=== RUN START ===" *)
| MsgSaved (wb_path : Path)           (* "Workbook saved → %s" *)
| MsgRunFailed (exc : Exn)            (* "Run failed: %s", with traceback *)
| MsgRunEnd.                          (* "=== RUN END ===\n" *)

(** What the program does, in the order it does it. *)
Inductive Event :=
| EvGet (url : string) (params : option Params) (r : Response)
| EvLog (level : Level) (msg : Msg)
| EvExcel (file_path : Path) (rows : list Row) (result : option Exn)
| EvOpen (file_path : Path) (result : option Exn)
| EvPost (url chat_id caption document : string) (r : PostResponse).

Abbreviation Trace := (list Event).

(** The environment of a run: the three secrets and the answers of the
    outside world, each of which may depend on all that happened before. *)
Record Env := {
  API_KEY : string;
  BOT_TOKEN : string;
  CHAT_ID : string;
  (** [s.lower()], the lowercase form of Unicode *)
  str_lower : string → string;
  (** [requests.get(url, headers=HEADERS, params=params, timeout=30)] *)
  requests_get : Trace → string → option Params → Response;
  (** [datetime.now(LOCAL_TZ).strftime("%Y%m%d")] *)
  today : Trace → string;
  (** [pd.DataFrame(rows)[cols].to_excel(file_path, ...)]: None when the
      file is written, the exception otherwise (with no rows the frame has
      no columns, and selecting [cols] raises KeyError) *)
  to_excel : Trace → Path → list Row → option Exn;
  (** [open(file_path, "rb")] *)
  open_rb : Trace → Path → option Exn;
  (** [requests.post(url, data=..., files=..., timeout=60)] *)
  requests_post : Trace → string → string → string → string → PostResponse;
}.

(** ** The monad of the program: a trace, exceptions, and fuel for the one
    unbounded loop *)

Inductive Outcome (A : Type) :=
| Done (a : A)          (* returned a *)
| Raised (e : Exn)      (* an exception is propagating *)
| OutOfFuel.            (* the loop asked for more iterations than allowed *)
Arguments Done {A} a.
Arguments Raised {A} e.
Arguments OutOfFuel {A}.

Definition M (A : Type) : Type := Trace → Outcome A * Trace.

#[export] Instance M_ret : MRet M := λ A a tr, (Done a, tr).

#[export] Instance M_bind : MBind M := λ A B k m tr,
  match m tr with
  | (Done a, tr') => k a tr'
  | (Raised e, tr') => (Raised e, tr')
  | (OutOfFuel, tr') => (OutOfFuel, tr')
  end.

Definition raise {A} (e : Exn) : M A := λ tr, (Raised e, tr).

Definition emit (ev : Event) : M unit := λ tr, (Done tt, tr ++ [ev]).

(** [try: body  except Exception as exc: handler(exc)] *)
Definition try_except {A} (body : M A) (handler : Exn → M A) : M A := λ tr,
  match body tr with
  | (Raised e, tr') => handler e tr'
  | r => r
  end.

(** [logging.info], [logging.error] and [logging.exception] (which logs at
    level ERROR). *)
Definition logging_info (msg : Msg) : M unit := emit (EvLog INFO msg).
Definition logging_error (msg : Msg) : M unit := emit (EvLog ERROR msg).
Definition logging_exception (msg : Msg) : M unit := emit (EvLog ERROR msg).

(** Truthiness of a string: the empty string is falsy. *)
Definition truthy (s : string) : bool := negb (bool_decide (s = "")).

(** [body.get("next_page_url") or None] *)
Definition next_or_None (n : NextPage) : option string :=
  match n with
  | NextUrl u => if truthy u then Some u else None
  | NextAbsent | NextNull | NextFalsy => None
  end.

Section program.

Variable E : Env.

(** ** 3. Helper functions: the paginated fetcher *)

(** One call of [requests.get]; the request and its answer go to the trace. *)
Definition http_get (url : string) (params : option Params) : M Response :=
  λ tr, let r := requests_get E tr url params in
        (Done r, tr ++ [EvGet url params r]).

(** The body of the [while url:] loop of [cf_get_all], up to the
    assignment of [url, params]: one page. *)
Definition get_page (url : string) (params : option Params)
  : M (list Record * option string) :=
  r ← http_get url params;
  match r with
  | RequestFails e => raise e
  | Resp status_code json =>
      if is_error_status status_code then raise (HTTPError status_code)
      else match json with
           | None => raise JSONDecodeError
           | Some body =>
               match data body with
               | None => raise (KeyError "data")
               | Some d => mret (d, next_or_None (next_page_url body))
               end
           end
  end.

(** The [while url:] loop.  [url] is None or a string; the loop runs while
    it is truthy.  [fuel] bounds the number of iterations. *)
Fixpoint cf_get_all_loop (fuel : nat) (url : option string)
    (params : option Params) (items : list Record) : M (list Record) :=
  match url with
  | None => mret items
  | Some u =>
      if truthy u then
        match fuel with
        | 0 => λ tr, (OutOfFuel, tr)
        | S fuel' =>
            '(d, next) ← get_page u params;
            cf_get_all_loop fuel' next None (items ++ d)
        end
      else mret items
  end.

Definition cf_get_all (fuel : nat) (path : string) (params : option Params)
  : M (list Record) :=
  cf_get_all_loop fuel (Some (BASE_URL +:+ path)) params [].

(** [lc = name.lower()], the test for the festival, the loop over
    [REGION_MAP.items()] and the default. *)
Definition chapter_to_region (name : string) : string :=
  let lc := str_lower E name in
  if bool_decide (lc = "global festival") then "Other"
  else match first_region lc REGION_MAP with
       | Some region => region
       | None => "EMEA"
       end.

(** ** 4. Data collection *)

(** [chapters[slug] = meta] on a dict kept as its items in insertion order:
    a key already present keeps its place and takes the new value, a new
    key goes to the end. *)
Fixpoint dict_set {V : Type} (k : string) (v : V) (d : list (string * V))
  : list (string * V) :=
  match d with
  | [] => [(k, v)]
  | (k', v') :: d' =>
      if bool_decide (k = k') then (k, v) :: d'
      else (k', v') :: dict_set k v d'
  end.

(** [ch["name"]["en_GB"]] and [ch["slug"]], in the order the loop body of
    [fetch_chapters] reads them. *)
Definition chapter_fields (ch : Record) : M (string * string) :=
  match ch with
  | ChapterRecord slug nm => mret (nm, slug)
  | EntryRecord _ _ => raise (KeyError "name")
  end.

(** The [for ch in ...] loop of [fetch_chapters]. *)
Fixpoint fetch_chapters_loop (recs : list Record)
    (chapters : list (string * Meta)) : M (list (string * Meta)) :=
  match recs with
  | [] => mret chapters
  | ch :: rest =>
      '(nm, slug) ← chapter_fields ch;
      fetch_chapters_loop rest
        (dict_set slug {| meta_name := nm; meta_region := chapter_to_region nm |}
                  chapters)
  end.

Definition fetch_chapters (fuel : nat) : M (list (string * Meta)) :=
  recs ← cf_get_all fuel "/chapter"
           (Some [("status", PStr "active"); ("per_page", PInt 100)]);
  chapters ← fetch_chapters_loop recs [];
  logging_info (MsgLoaded (length chapters));;
  mret chapters.

Definition gather_entries (fuel : nat) (category_slug : string)
  : M (list Record) :=
  logging_info (MsgPulling category_slug);;
  cf_get_all fuel "/entry"
    (Some [("category", PStr category_slug); ("per_page", PInt 100)]).

Definition zero_counts : Counts :=
  {| c13_sub := 0; c13_prog := 0; c18_sub := 0; c18_prog := 0 |}.

(** [{slug: {"13_sub": 0, ...} for slug in chapters}] *)
Definition init_counts (chapters : list (string * Meta)) : gmap string Counts :=
  foldl (λ counts slug, <[slug := zero_counts]> counts) ∅ (chapters.*1).

(** [c[k] += 1] *)
Definition incr (k : CountKey) (c : Counts) : Counts :=
  match k with
  | K13_sub => {| c13_sub := c13_sub c + 1; c13_prog := c13_prog c;
                  c18_sub := c18_sub c; c18_prog := c18_prog c |}
  | K13_prog => {| c13_sub := c13_sub c; c13_prog := c13_prog c + 1;
                   c18_sub := c18_sub c; c18_prog := c18_prog c |}
  | K18_sub => {| c13_sub := c13_sub c; c13_prog := c13_prog c;
                  c18_sub := c18_sub c + 1; c18_prog := c18_prog c |}
  | K18_prog => {| c13_sub := c13_sub c; c13_prog := c13_prog c;
                   c18_sub := c18_sub c; c18_prog := c18_prog c + 1 |}
  end.

(** [c[k]] *)
Definition get_count (k : CountKey) (c : Counts) : nat :=
  match k with
  | K13_sub => c13_sub c
  | K13_prog => c13_prog c
  | K18_sub => c18_sub c
  | K18_prog => c18_prog c
  end.

(** [e["chapter"]["slug"], e["status"]] *)
Definition entry_fields (e : Record) : M (string * string) :=
  match e with
  | EntryRecord ch st => mret (ch, st)
  | ChapterRecord _ _ => raise (KeyError "chapter")
  end.

(** [if ch in counts: counts[ch][sub if st == "submitted" else prog] += 1] *)
Definition count_entry (sub prog : CountKey) (ch st : string)
    (counts : gmap string Counts) : gmap string Counts :=
  match counts !! ch with
  | Some _ =>
      alter (incr (if bool_decide (st = "submitted") then sub else prog))
            ch counts
  | None => counts
  end.

(** One of the two [for e in gather_entries(...)] loops of [build_counts],
    with the pair of keys of its age bracket. *)
Fixpoint count_entries (sub prog : CountKey) (es : list Record)
    (counts : gmap string Counts) : M (gmap string Counts) :=
  match es with
  | [] => mret counts
  | e :: rest =>
      '(ch, st) ← entry_fields e;
      count_entries sub prog rest (count_entry sub prog ch st counts)
  end.

Definition build_counts (fuel : nat) (chapters : list (string * Meta))
  : M (gmap string Counts) :=
  let counts := init_counts chapters in
  es ← gather_entries fuel CATEGORY_13_17;
  counts ← count_entries K13_sub K13_prog es counts;
  es ← gather_entries fuel CATEGORY_above18;
  count_entries K18_sub K18_prog es counts.

(** ** 5. File creation and Telegram send *)

Definition make_workbook (rows : list Row) : M Path := λ tr,
  let tag := today E tr in
  let file_path :=
    {| parent := ""; name := "award_force_stage1_" +:+ tag +:+ ".xlsx" |} in
  let result := to_excel E tr file_path rows in
  let tr' := tr ++ [EvExcel file_path rows result] in
  match result with
  | None => (Done file_path, tr')
  | Some e => (Raised e, tr')
  end.

(** [open(file_path, "rb")] *)
Definition open_file (file_path : Path) : M unit := λ tr,
  let result := open_rb E tr file_path in
  let tr' := tr ++ [EvOpen file_path result] in
  match result with
  | None => (Done tt, tr')
  | Some e => (Raised e, tr')
  end.

Definition http_post (url chat_id caption document : string)
  : M PostResponse :=
  λ tr, let r := requests_post E tr url chat_id caption document in
        (Done r, tr ++ [EvPost url chat_id caption document r]).

Definition send_to_telegram (file_path : Path) : M unit :=
  if negb (truthy (BOT_TOKEN E) && truthy (CHAT_ID E)) then
    logging_error MsgTelegramMissing
  else
    let url := "https://api.telegram.org/bot" +:+ BOT_TOKEN E +:+ "/sendDocument" in
    open_file file_path;;
    resp ← http_post url (CHAT_ID E) (name file_path) (name file_path);
    match resp with
    | PostFails e => raise e
    | PostResp status_code text =>
        if ok status_code then logging_info (MsgSent (name file_path) (CHAT_ID E))
        else logging_error (MsgUploadFailed text)
    end.

(** ** 6. Main *)

(** The sort key of [main]: [(kv[1]["region"], kv[1]["name"].lower())]. *)
Definition sort_key (kv : string * Meta) : string * string :=
  (meta_region kv.2, str_lower E (meta_name kv.2)).

(** [a < b] on pairs of strings, as Python compares tuples: the first
    components decide unless they are equal. *)
Definition tuple_lt (a b : string * string) : bool :=
  if String.eqb a.1 b.1 then String.ltb a.2 b.2 else String.ltb a.1 b.1.

(** [sorted(items, key=...)].  Python's sort is stable and compares keys
    with [<] only; the list it returns is the one a stable insertion sort
    returns.  [insert_sorted x l] puts [x], which stood before all of [l],
    in front of the first element that is not smaller than it. *)
Fixpoint insert_sorted {A : Type} (key : A → string * string) (x : A)
    (l : list A) : list A :=
  match l with
  | [] => [x]
  | y :: l' =>
      if tuple_lt (key y) (key x) then y :: insert_sorted key x l'
      else x :: y :: l'
  end.

Definition sorted {A : Type} (key : A → string * string) (l : list A) : list A :=
  foldr (insert_sorted key) [] l.

(** [sum(c.values())] *)
Definition sum_values (c : Counts) : nat :=
  0 + c13_sub c + c13_prog c + c18_sub c + c18_prog c.

(** The [for i, (slug, meta) in enumerate(..., start=i)] loop of [main];
    [counts[slug]] raises KeyError when the slug has no counts. *)
Fixpoint compose_rows (i : nat) (items : list (string * Meta))
    (counts : gmap string Counts) : M (list Row) :=
  match items with
  | [] => mret []
  | (slug, meta) :: rest =>
      match counts !! slug with
      | None => raise (KeyError slug)
      | Some c =>
          let row := {| No := i;
                        Region := meta_region meta;
                        Chapter_Name := meta_name meta;
                        Y13_Submitted := c13_sub c;
                        Y13_In_Progress := c13_prog c;
                        Y18_Submitted := c18_sub c;
                        Y18_In_Progress := c18_prog c;
                        Total := sum_values c |} in
          rows ← compose_rows (S i) rest counts;
          mret (row :: rows)
      end
  end.

(** The "Compose & sort" block of [main]. *)
Definition compose (chapters : list (string * Meta))
    (counts : gmap string Counts) : M (list Row) :=
  compose_rows 1 (sorted sort_key chapters) counts.

(** The body of the [try] of [main]. *)
Definition main_body (fuel : nat) : M unit :=
  chapters ← fetch_chapters fuel;
  counts ← build_counts fuel chapters;
  rows ← compose chapters counts;
  wb_path ← make_workbook rows;
  logging_info (MsgSaved wb_path);;
  send_to_telegram wb_path.

Definition main (fuel : nat) : M unit :=
  if negb (truthy (API_KEY E)) then
    logging_error MsgKeyMissing
  else
    logging_info MsgRunStart;;
    try_except (main_body fuel)
               (λ exc, logging_exception (MsgRunFailed exc));;
    logging_info MsgRunEnd.

End program.

(** * Vocabulary of the statements *)

(** ** Lowercasing *)

(** What is known of [str.lower] without the tables of Unicode: on a
    string of ASCII characters it moves 'A'..'Z' by 32 and leaves the rest
    alone. *)
Definition lower_on_ascii (E : Env) : Prop :=
  ∀ s, is_ascii s = true → str_lower E s = ascii_lower s.

(** ** Status codes *)

(** A success status: 2xx. *)
Definition success_status (status_code : nat) : bool :=
  Nat.leb 200 status_code && Nat.ltb status_code 300.

(** ** Pages *)

(** A successful page as the fetcher sees it: the status code, the record
    batch under ["data"] and the value under ["next_page_url"]. *)
Record Page := {
  page_status : nat;
  page_batch : list Record;
  page_next : NextPage;
}.

Definition page_response (p : Page) : Response :=
  Resp (page_status p)
       (Some {| data := Some (page_batch p); next_page_url := page_next p |}).

(** The requests a fetch that starts at [u] with [params] issues when it is
    answered with [pages], each with the answer it got. *)
Fixpoint page_events (u : string) (params : option Params)
    (pages : list Page) : list Event :=
  match pages with
  | [] => []
  | p :: rest =>
      EvGet u params (page_response p) ::
      match next_or_None (page_next p) with
      | Some u' => page_events u' None rest
      | None => []
      end
  end.

(** The fetch that starts at [u] with [params] after [tr] is answered with
    [pages], every one with a success status, and every one but the last
    with a truthy next-page reference. *)
Fixpoint serves (E : Env) (tr : Trace) (u : string) (params : option Params)
    (pages : list Page) : Prop :=
  match pages with
  | [] => False
  | p :: rest =>
      requests_get E tr u params = page_response p ∧
      is_error_status (page_status p) = false ∧
      match next_or_None (page_next p), rest with
      | None, [] => True
      | Some u', _ :: _ =>
          serves E (tr ++ [EvGet u params (page_response p)]) u' None rest
      | _, _ => False
      end
  end.

(** The fetch is answered with [pages], all successful with a truthy
    next-page reference, and then with status [status_code], which
    [raise_for_status] refuses. *)
Fixpoint fails_after (E : Env) (tr : Trace) (u : string)
    (params : option Params) (pages : list Page) (status_code : nat)
    (json : option Body) : Prop :=
  match pages with
  | [] =>
      requests_get E tr u params = Resp status_code json ∧
      is_error_status status_code = true
  | p :: rest =>
      requests_get E tr u params = page_response p ∧
      is_error_status (page_status p) = false ∧
      match next_or_None (page_next p) with
      | Some u' =>
          fails_after E (tr ++ [EvGet u params (page_response p)]) u' None
                      rest status_code json
      | None => False
      end
  end.

(** Every request is answered with a successful page that carries a truthy
    next-page reference. *)
Definition always_more (E : Env) : Prop :=
  ∀ tr u params, ∃ p u',
    requests_get E tr u params = page_response p ∧
    is_error_status (page_status p) = false ∧
    next_or_None (page_next p) = Some u'.

(** The URL and the query parameters of a request. *)
Definition get_request (ev : Event) : option (string * option Params) :=
  match ev with
  | EvGet url params _ => Some (url, params)
  | _ => None
  end.

(** The next-page references of [pages] that the fetcher follows. *)
Definition followed (pages : list Page) : list string :=
  omap (λ p, next_or_None (page_next p)) pages.

(** ** Events *)

Definition is_get (ev : Event) : Prop :=
  match ev with EvGet _ _ _ => True | _ => False end.

(** A request that was answered with a 4xx or 5xx status. *)
Definition refused (ev : Event) : Prop :=
  match ev with
  | EvGet _ _ (Resp status_code _) => is_error_status status_code = true
  | _ => False
  end.

(** A request that was answered with the 4xx or 5xx status [status_code]. *)
Definition refused_with (status_code : nat) (ev : Event) : Prop :=
  match ev with
  | EvGet _ _ (Resp st _) => st = status_code ∧ is_error_status st = true
  | _ => False
  end.

(** Producing the artifact or delivering it: writing the workbook, opening
    it, uploading it. *)
Definition artifact_event (ev : Event) : Prop :=
  match ev with
  | EvExcel _ _ _ | EvOpen _ _ | EvPost _ _ _ _ _ => True
  | _ => False
  end.

Definition start_marker : Event := EvLog INFO MsgRunStart.
Definition end_marker : Event := EvLog INFO MsgRunEnd.

Definition marker (ev : Event) : Prop := ev = start_marker ∨ ev = end_marker.

(** ** Computations *)

(** All that [m] appends to the trace satisfies [P]. *)
Definition emits {A : Type} (P : Event → Prop) (m : M A) : Prop :=
  ∀ tr, ∃ evs, (m tr).2 = tr ++ evs ∧ Forall P evs.

(** [m] issues requests and writes log records, nothing else; either no
    request of it is refused, or the refused request is the last thing it
    does and it raises the HTTP error of that status. *)
Definition fetch_phase {A : Type} (m : M A) : Prop :=
  ∀ tr, ∃ evs,
    (m tr).2 = tr ++ evs ∧
    Forall (λ ev, ¬ artifact_event ev ∧ ¬ marker ev) evs ∧
    (Forall (λ ev, ¬ refused ev) evs ∨
     ∃ evs0 ev status_code,
       evs = evs0 ++ [ev] ∧ refused_with status_code ev ∧
       Forall (λ ev, ¬ refused ev) evs0 ∧
       (m tr).1 = Raised (HTTPError status_code)).

(** The same for a computation that goes on to produce the artifact: when
    a request is refused, nothing is produced or delivered. *)
Definition run_phase {A : Type} (m : M A) : Prop :=
  ∀ tr, ∃ evs,
    (m tr).2 = tr ++ evs ∧
    Forall (λ ev, ¬ marker ev) evs ∧
    (Forall (λ ev, ¬ refused ev) evs ∨
     ∃ evs0 ev status_code,
       evs = evs0 ++ [ev] ∧ refused_with status_code ev ∧
       Forall (λ ev, ¬ refused ev) evs0 ∧
       Forall (λ ev, ¬ artifact_event ev) evs ∧
       (m tr).1 = Raised (HTTPError status_code)).

(** [m] gives up for lack of fuel only after [fuel] requests in a row, all
    of one fetch. *)
Definition exhausts {A : Type} (fuel : nat) (m : M A) : Prop :=
  ∀ tr tr', m tr = (OutOfFuel, tr') →
    ∃ evs gets, tr' = tr ++ evs ++ gets ∧
                Forall is_get gets ∧ length gets = fuel.

(** ** Entries and counts *)

(** An entry with its two fields, and the record it is fetched as. *)
Definition entry_record (e : string * string) : Record :=
  EntryRecord e.1 e.2.

(** The number of entries of [es] of chapter [slug] whose status is
    "submitted" ([submitted = true]) or something else. *)
Definition tally (slug : string) (submitted : bool)
    (es : list (string * string)) : nat :=
  length (filter (λ e, e.1 = slug ∧ bool_decide (e.2 = "submitted") = submitted) es).

(** [c] with [n] added under key [k]. *)
Definition add_count (k : CountKey) (n : nat) (c : Counts) : Counts :=
  match k with
  | K13_sub => {| c13_sub := c13_sub c + n; c13_prog := c13_prog c;
                  c18_sub := c18_sub c; c18_prog := c18_prog c |}
  | K13_prog => {| c13_sub := c13_sub c; c13_prog := c13_prog c + n;
                   c18_sub := c18_sub c; c18_prog := c18_prog c |}
  | K18_sub => {| c13_sub := c13_sub c; c13_prog := c13_prog c;
                  c18_sub := c18_sub c + n; c18_prog := c18_prog c |}
  | K18_prog => {| c13_sub := c13_sub c; c13_prog := c13_prog c;
                   c18_sub := c18_sub c; c18_prog := c18_prog c + n |}
  end.

(** A record that has the fields of an entry, and those fields. *)
Definition is_entry (r : Record) : bool :=
  match r with EntryRecord _ _ => true | ChapterRecord _ _ => false end.

Definition fields_of (r : Record) : string * string :=
  match r with
  | EntryRecord ch st => (ch, st)
  | ChapterRecord slug nm => (slug, nm)
  end.

(** One pass over well-formed entries, without the monad. *)
Definition count_pass (sub prog : CountKey) (es : list (string * string))
    (counts : gmap string Counts) : gmap string Counts :=
  foldl (λ counts e, count_entry sub prog e.1 e.2 counts) counts es.

(** ** Rows *)

(** The sort key of the chapter a row was made of. *)
Definition row_key (E : Env) (r : Row) : string * string :=
  (Region r, str_lower E (Chapter_Name r)).

(** [a <= b] on keys: not [b < a]. *)
Definition tuple_le (a b : string * string) : Prop := tuple_lt b a = false.

(** The row of the item [kv] of [chapters.items()], but for its number. *)
Definition row_of (counts : gmap string Counts) (kv : string * Meta)
    (r : Row) : Prop :=
  Region r = meta_region kv.2 ∧
  Chapter_Name r = meta_name kv.2 ∧
  counts !! kv.1 = Some {| c13_sub := Y13_Submitted r;
                           c13_prog := Y13_In_Progress r;
                           c18_sub := Y18_Submitted r;
                           c18_prog := Y18_In_Progress r |}.

(** The place of a region tag in the order AMR, APJ, EMEA, Other, PRC. *)
Definition region_rank (region : string) : nat :=
  if bool_decide (region = "AMR") then 0
  else if bool_decide (region = "APJ") then 1
  else if bool_decide (region = "EMEA") then 2
  else if bool_decide (region = "Other") then 3
  else 4.

(** * Fixtures *)

#[export] Instance ParamVal_eq_dec : EqDecision ParamVal.
Proof. solve_decision. Defined.

#[export] Instance CountKey_eq_dec : EqDecision CountKey.
Proof. solve_decision. Defined.

#[export] Instance Record_eq_dec : EqDecision Record.
Proof. solve_decision. Defined.

(** [str.lower] on the strings of the fixtures: ASCII, the letters of
    Latin-1 (U+00C0..U+00DE but U+00D7, in UTF-8 the byte 195 and a byte of
    128..158 but 151, which moves by 32) and the Kelvin sign (U+212A, the
    bytes 226 132 170), whose lowercase form is the letter k. *)
Fixpoint kelvin_to_k (s : string) : string :=
  match s with
  | EmptyString => EmptyString
  | String c s' =>
      match s' with
      | String c1 (String c2 rest) =>
          if (nat_of_ascii c =? 226) && (nat_of_ascii c1 =? 132)
             && (nat_of_ascii c2 =? 170)
          then String (ascii_of_nat 107) (kelvin_to_k rest)
          else String c (kelvin_to_k s')
      | _ => String c (kelvin_to_k s')
      end
  end.

(** The lowercase form of the byte [c] that follows the byte [prev]. *)
Definition latin1_lower_byte (prev c : ascii) : ascii :=
  let n := nat_of_ascii c in
  if (nat_of_ascii prev =? 195) && Nat.leb 128 n && Nat.leb n 158
     && negb (n =? 151)
  then ascii_of_nat (n + 32)
  else lower_char c.

Fixpoint latin1_lower (prev : ascii) (s : string) : string :=
  match s with
  | EmptyString => EmptyString
  | String c s' => String (latin1_lower_byte prev c) (latin1_lower c s')
  end.

Definition sample_lower (s : string) : string :=
  latin1_lower zero (kelvin_to_k s).

(** [pd.DataFrame(rows)[cols].to_excel(...)] on a disk with room: without
    rows the frame has no columns and the selection of [cols] raises
    KeyError, with a message that names the columns. *)
Definition frame_to_excel (rows : list Row) : option Exn :=
  match rows with
  | [] => Some (KeyError "None of [cols] are in the [columns]")
  | _ :: _ => None
  end.

(** A server without memory: the answer is looked up by URL and query
    parameters; an unknown request gets 404. *)
Fixpoint table_get (table : list (string * option Params * Response))
    (url : string) (params : option Params) : Response :=
  match table with
  | [] => Resp 404 None
  | (u, ps, r) :: rest =>
      if bool_decide (u = url ∧ ps = params) then r
      else table_get rest url params
  end.

Definition table_env (api_key bot_token chat_id : string)
    (table : list (string * option Params * Response))
    (post : PostResponse) : Env :=
  {| API_KEY := api_key; BOT_TOKEN := bot_token; CHAT_ID := chat_id;
     str_lower := sample_lower;
     requests_get := λ _, table_get table;
     today := λ _, "20250722";
     to_excel := λ _ _, frame_to_excel;
     open_rb := λ _ _, None;
     requests_post := λ _ _ _ _ _, post |}.

Definition chapter_params : option Params :=
  Some [("status", PStr "active"); ("per_page", PInt 100)].

Definition entry_params (category_slug : string) : option Params :=
  Some [("category", PStr category_slug); ("per_page", PInt 100)].

(** Three pages of 100, 100 and 7 entries, all different. *)
Definition numbered_entry (i : nat) : Record :=
  EntryRecord (String (ascii_of_nat i) "") "submitted".

Definition three_pages : list Page :=
  [ {| page_status := 200; page_batch := numbered_entry <$> seq 0 100;
       page_next := NextUrl "https://api.us.cr4ce.com/entry?page=2" |};
    {| page_status := 200; page_batch := numbered_entry <$> seq 100 100;
       page_next := NextUrl "https://api.us.cr4ce.com/entry?page=3" |};
    {| page_status := 200; page_batch := numbered_entry <$> seq 200 7;
       page_next := NextNull |} ].

Definition three_pages_table : list (string * option Params * Response) :=
  match three_pages with
  | [p1; p2; p3] =>
      [ ("https://api.us.cr4ce.com/entry", entry_params CATEGORY_13_17,
         page_response p1);
        ("https://api.us.cr4ce.com/entry?page=2", None, page_response p2);
        ("https://api.us.cr4ce.com/entry?page=3", None, page_response p3) ]
  | _ => []
  end.

Definition three_pages_env : Env :=
  table_env "key" "token" "42" three_pages_table (PostResp 200 "ok").

Definition one_page (batch : list Record) (next : NextPage) : Response :=
  page_response {| page_status := 200; page_batch := batch; page_next := next |}.

(** Two chapters, three entries of the younger bracket (one of an unknown
    chapter) and one of the older. *)
Definition festival_table : list (string * option Params * Response) :=
  [ ("https://api.us.cr4ce.com/chapter", chapter_params,
     one_page [ChapterRecord "A" "Brazil"; ChapterRecord "B" "China"] NextNull);
    ("https://api.us.cr4ce.com/entry", entry_params CATEGORY_13_17,
     one_page [EntryRecord "A" "submitted"; EntryRecord "A" "pending";
               EntryRecord "C" "submitted"] (NextUrl ""));
    ("https://api.us.cr4ce.com/entry", entry_params CATEGORY_above18,
     one_page [EntryRecord "B" "submitted"] NextAbsent) ].

Definition festival_env : Env :=
  table_env "key" "token" "42" festival_table (PostResp 200 "ok").

(** "South Korea" written with the Kelvin sign (U+212A) for its K. *)
Definition South_Korea_kelvin : string :=
  "South " +:+ String (ascii_of_nat 226) (String (ascii_of_nat 132)
                 (String (ascii_of_nat 170) "orea")).

(** The same server, asked without an API key. *)
Definition no_key_env : Env :=
  table_env "" "token" "42" festival_table (PostResp 200 "ok").

(** The same server; Telegram does not answer in time. *)
Definition upload_timeout_env : Env :=
  table_env "key" "token" "42" festival_table (PostFails Timeout).

(** The same chapters; the entries endpoint answers 500. *)
Definition failing_table : list (string * option Params * Response) :=
  [ ("https://api.us.cr4ce.com/chapter", chapter_params,
     one_page [ChapterRecord "A" "Brazil"] (NextUrl "https://api.us.cr4ce.com/chapter?page=2"));
    ("https://api.us.cr4ce.com/chapter?page=2", None,
     one_page [ChapterRecord "B" "China"] NextNull);
    ("https://api.us.cr4ce.com/entry", entry_params CATEGORY_13_17,
     Resp 500 None) ].

Definition failing_env : Env :=
  table_env "key" "token" "42" failing_table (PostResp 200 "ok").

(** The festival's chapters; the entries of the younger bracket come with
    the status 304. *)
Definition not_modified_table : list (string * option Params * Response) :=
  [ ("https://api.us.cr4ce.com/chapter", chapter_params,
     one_page [ChapterRecord "A" "Brazil"; ChapterRecord "B" "China"] NextNull);
    ("https://api.us.cr4ce.com/entry", entry_params CATEGORY_13_17,
     Resp 304 (Some {| data := Some [EntryRecord "A" "submitted"];
                       next_page_url := NextNull |}));
    ("https://api.us.cr4ce.com/entry", entry_params CATEGORY_above18,
     one_page [EntryRecord "B" "submitted"] NextNull) ].

Definition not_modified_env : Env :=
  table_env "key" "token" "42" not_modified_table (PostResp 200 "ok").

(** A server whose every page points to the same page again. *)
Definition cycle_env : Env :=
  {| API_KEY := "key"; BOT_TOKEN := "token"; CHAT_ID := "42";
     str_lower := sample_lower;
     requests_get := λ _ _ _,
       one_page [] (NextUrl "https://api.us.cr4ce.com/entry?page=1");
     today := λ _, "20250722";
     to_excel := λ _ _, frame_to_excel;
     open_rb := λ _ _, None;
     requests_post := λ _ _ _ _ _, PostResp 200 "ok" |}.

(** The workbook of a run of 22 July 2025. *)
Definition workbook_20250722 : Path :=
  {| parent := ""; name := "award_force_stage1_20250722.xlsx" |}.

(** The URL [send_to_telegram] posts to. *)
Definition sendDocument_url (E : Env) : string :=
  "https://api.telegram.org/bot" +:+ BOT_TOKEN E +:+ "/sendDocument".

(** Telegram answers with a status that is not ok. *)
Definition upload_rejected_env : Env :=
  table_env "key" "token" "42" festival_table (PostResp 403 "Forbidden").

(** No chat identifier is configured. *)
Definition no_chat_env : Env :=
  table_env "key" "token" "" festival_table (PostResp 200 "ok").



(** The chapters of the ordering example. *)
Definition zeta_alpha_beta : list (string * Meta) :=
  [ ("zeta", {| meta_name := "Zeta"; meta_region := "AMR" |});
    ("alpha", {| meta_name := "Alpha"; meta_region := "AMR" |});
    ("beta", {| meta_name := "Beta"; meta_region := "PRC" |}) ].

(** Three chapters of one region whose order depends on the case of
    their names: as they are written, "Beta" < "Zeta" < "alpha". *)
Definition mixed_case_chapters : list (string * Meta) :=
  [ ("zeta", {| meta_name := "Zeta"; meta_region := "AMR" |});
    ("alpha", {| meta_name := "alpha"; meta_region := "AMR" |});
    ("beta", {| meta_name := "Beta"; meta_region := "AMR" |}) ].

(** Two chapters whose names part after a capital that is not ASCII. *)
Definition sao_chapters : list (string * Meta) :=
  [ ("st", {| meta_name := "SÃO TOMÉ"; meta_region := "EMEA" |});
    ("sp", {| meta_name := "São Paulo"; meta_region := "EMEA" |}) ].

(** Five chapters, one of each region, as the chapter loader stores them. *)
Definition five_regions : list (string * Meta) :=
  (λ p : string * string,
     (p.1, {| meta_name := p.2;
              meta_region := chapter_to_region festival_env p.2 |})) <$>
  [ ("cn", "China"); ("gf", "Global Festival"); ("fr", "France");
    ("jp", "Japan"); ("br", "Brazil") ].

Definition five_regions_rows : list Row :=
  match (compose festival_env five_regions
           (init_counts five_regions) []).1 with
  | Done rows => rows
  | _ => []
  end.

(** * Further vocabulary *)

(** ** Dicts kept as their items *)

(** [d.get(k)] on a dict kept as its items. *)
Fixpoint dict_get {V : Type} (k : string) (d : list (string * V)) : option V :=
  match d with
  | [] => None
  | (k', v) :: d' => if bool_decide (k = k') then Some v else dict_get k d'
  end.

(** The elements of [l] that are not in [seen], each once, in the order of
    their first occurrence. *)
Fixpoint first_occurrences (seen l : list string) : list string :=
  match l with
  | [] => []
  | x :: l' =>
      if bool_decide (x ∈ seen) then first_occurrences seen l'
      else x :: first_occurrences (seen ++ [x]) l'
  end.

(** A chapter with its slug and its name, and the record it is fetched
    as. *)
Definition chapter_record (p : string * string) : Record :=
  ChapterRecord p.1 p.2.

(** What the chapter loader stores for a chapter of name [nm]. *)
Definition meta_of (E : Env) (nm : string) : Meta :=
  {| meta_name := nm; meta_region := chapter_to_region E nm |}.

Definition is_chapter (r : Record) : bool :=
  match r with ChapterRecord _ _ => true | EntryRecord _ _ => false end.

(** The chapters of a run with three records, two of them of one slug. *)
Definition renamed_chapters : list (string * string) :=
  [ ("br", "Brasil"); ("cn", "China"); ("br", "Brazil") ].

(** ** A fetch that breaks off *)

(** The fetch is answered with [pages], all successful with a truthy
    next-page reference, and then with [r]. *)
Fixpoint answered_then (E : Env) (tr : Trace) (u : string)
    (params : option Params) (pages : list Page) (r : Response) : Prop :=
  match pages with
  | [] => requests_get E tr u params = r
  | p :: rest =>
      requests_get E tr u params = page_response p ∧
      is_error_status (page_status p) = false ∧
      match next_or_None (page_next p) with
      | Some u' =>
          answered_then E (tr ++ [EvGet u params (page_response p)]) u' None
                        rest r
      | None => False
      end
  end.

(** A chapters endpoint that serves [renamed_chapters] on one page. *)
Definition renamed_table : list (string * option Params * Response) :=
  [ ("https://api.us.cr4ce.com/chapter", chapter_params,
     one_page (chapter_record <$> renamed_chapters) NextNull) ].

Definition renamed_env : Env :=
  table_env "key" "token" "42" renamed_table (PostResp 200 "ok").

(** The chapters endpoint serves a first page; the second request times
    out, is answered with a body that is no JSON, or with a JSON object
    without "data". *)
Definition broken_table (r : Response)
  : list (string * option Params * Response) :=
  [ ("https://api.us.cr4ce.com/chapter", chapter_params,
     one_page [ChapterRecord "A" "Brazil"]
              (NextUrl "https://api.us.cr4ce.com/chapter?page=2"));
    ("https://api.us.cr4ce.com/chapter?page=2", None, r) ].

Definition broken_env (r : Response) : Env :=
  table_env "key" "token" "42" (broken_table r) (PostResp 200 "ok").

Definition first_chapter_page : Page :=
  {| page_status := 200; page_batch := [ChapterRecord "A" "Brazil"];
     page_next := NextUrl "https://api.us.cr4ce.com/chapter?page=2" |}.

(** ** Totals *)

(** The sum of all the counters of the chapters [slugs]. *)
Definition grand_total (slugs : list string) (counts : gmap string Counts)
  : nat :=
  sum_list ((λ s, from_option sum_values 0 (counts !! s)) <$> slugs).

(** The entries of [es] whose chapter is one of [slugs]. *)
Definition known (slugs : list string) (es : list (string * string))
  : list (string * string) :=
  filter (λ e, e.1 ∈ slugs) es.

(** The chapters the festival's server serves, as the loader stores
    them. *)
Definition festival_chapters : list (string * Meta) :=
  [ ("A", meta_of festival_env "Brazil");
    ("B", meta_of festival_env "China") ].

(** The entries the festival's server serves for the two brackets. *)
Definition festival_es13 : list (string * string) :=
  [ ("A", "submitted"); ("A", "pending"); ("C", "submitted") ].

Definition festival_es18 : list (string * string) := [ ("B", "submitted") ].

(** The rows of the festival's report. *)
Definition festival_rows : list Row :=
  [ {| No := 1; Region := "AMR"; Chapter_Name := "Brazil";
       Y13_Submitted := 1; Y13_In_Progress := 1;
       Y18_Submitted := 0; Y18_In_Progress := 0; Total := 2 |};
    {| No := 2; Region := "PRC"; Chapter_Name := "China";
       Y13_Submitted := 0; Y13_In_Progress := 0;
       Y18_Submitted := 1; Y18_In_Progress := 0; Total := 1 |} ].

(** The festival's server on the day after. *)
Definition next_day_env : Env :=
  {| API_KEY := "key"; BOT_TOKEN := "token"; CHAT_ID := "42";
     str_lower := sample_lower;
     requests_get := λ _, table_get festival_table;
     today := λ _, "20250723";
     to_excel := λ _ _, frame_to_excel;
     open_rb := λ _ _, None;
     requests_post := λ _ _ _ _ _, PostResp 200 "ok" |}.

Definition workbook_20250723 : Path :=
  {| parent := ""; name := "award_force_stage1_20250723.xlsx" |}.

(** ** The artifact in a trace *)

Definition is_excel (ev : Event) : Prop :=
  match ev with EvExcel _ _ _ => True | _ => False end.

(** Opening the workbook for upload, or uploading it. *)
Definition delivery_event (ev : Event) : Prop :=
  match ev with
  | EvOpen _ _ | EvPost _ _ _ _ _ => True
  | _ => False
  end.

(** What [ev] opens or uploads, if anything, is the file [fp]: the file
    is opened by its path and posted under its name, as caption and as
    document. *)
Definition delivers_only (fp : Path) (ev : Event) : Prop :=
  match ev with
  | EvOpen file_path _ => file_path = fp
  | EvPost _ _ caption document _ => caption = name fp ∧ document = name fp
  | _ => True
  end.

(** What a run may do about the artifact: nothing; or write the workbook
    once, with nothing about the artifact before, no second write after,
    nothing opened or uploaded after but the file of that write, and, when
    the write failed, nothing about the artifact after. *)
Definition one_workbook_then_delivery (evs : list Event) : Prop :=
  Forall (λ ev, ¬ artifact_event ev) evs ∨
  ∃ pre fp rows result post,
    evs = pre ++ [EvExcel fp rows result] ++ post ∧
    Forall (λ ev, ¬ artifact_event ev) pre ∧
    Forall (λ ev, ¬ is_excel ev) post ∧
    Forall (delivers_only fp) post ∧
    (result ≠ None → Forall (λ ev, ¬ artifact_event ev) post).

(** The festival's server; writing the workbook fails. *)
Definition disk_full_env : Env :=
  {| API_KEY := "key"; BOT_TOKEN := "token"; CHAT_ID := "42";
     str_lower := sample_lower;
     requests_get := λ _, table_get festival_table;
     today := λ _, "20250722";
     to_excel := λ _ _ _, Some (OSError "No space left on device");
     open_rb := λ _ _, None;
     requests_post := λ _ _ _ _ _, PostResp 200 "ok" |}.

(** The entries endpoint serves a record that is no entry in the first
    batch. *)
Definition malformed_table : list (string * option Params * Response) :=
  [ ("https://api.us.cr4ce.com/entry", entry_params CATEGORY_13_17,
     one_page [EntryRecord "A" "submitted"; ChapterRecord "A" "Brazil"]
              NextNull);
    ("https://api.us.cr4ce.com/entry", entry_params CATEGORY_above18,
     one_page [EntryRecord "B" "submitted"] NextNull) ].

Definition malformed_env : Env :=
  table_env "key" "token" "42" malformed_table (PostResp 200 "ok").

(** Two chapters of one region whose names differ in case only, with a
    third between them in the mapping. *)
Definition tied_chapters : list (string * Meta) :=
  [ ("x", {| meta_name := "Goa"; meta_region := "APJ" |});
    ("y", {| meta_name := "Fiji"; meta_region := "APJ" |});
    ("z", {| meta_name := "GOA"; meta_region := "APJ" |}) ].



Definition tied_rows : list Row :=
  match (compose festival_env tied_chapters
           (init_counts tied_chapters) []).1 with
  | Done rows => rows
  | _ => []
  end.

(** Two chapters of one region whose names differ in the case of letters
    that are not all ASCII, with a third between them in the mapping. *)
Definition ivoire_chapters : list (string * Meta) :=
  [ ("ci", {| meta_name := "Côte d'Ivoire"; meta_region := "EMEA" |});
    ("dk", {| meta_name := "Denmark"; meta_region := "EMEA" |});
    ("ci2", {| meta_name := "CÔTE D'IVOIRE"; meta_region := "EMEA" |}) ].

Definition ivoire_rows : list Row :=
  match (compose festival_env ivoire_chapters
           (init_counts ivoire_chapters) []).1 with
  | Done rows => rows
  | _ => []
  end.

(** A request to a truthy URL, without query parameters: what following a
    next-page reference looks like. *)
Definition follow_up (ev : Event) : Prop :=
  match ev with
  | EvGet u None _ => truthy u = true
  | _ => False
  end.
(** * Properties *)

(** ** The region classifier *)

Lemma lower_char_idemp c : lower_char (lower_char c) = lower_char c.
Proof.
  destruct c as [[] [] [] [] [] [] [] []]; reflexivity.
Qed.

Lemma ascii_lower_idemp s : ascii_lower (ascii_lower s) = ascii_lower s.
Proof.
  induction s as [|c s IH]; simpl; [done|].
  by rewrite lower_char_idemp, IH.
Qed.

Lemma first_region_Some lc items region :
  first_region lc items = Some region →
  ∃ countries, (region, countries) ∈ items ∧ lc ∈ countries.
Proof.
  induction items as [|[r cs] rest IH]; simpl; [done|].
  case_bool_decide as Hin.
  - intros [= <-]. exists cs. split; [left | done].
  - intros H. destruct (IH H) as (cs' & ? & ?).
    exists cs'. split; [by right | done].
Qed.

Lemma first_region_None lc items :
  first_region lc items = None ↔
  ∀ region countries, (region, countries) ∈ items → lc ∉ countries.
Proof.
  induction items as [|[r cs] rest IH]; simpl.
  - split; [|done]. intros _ ?? H. by apply elem_of_nil in H.
  - case_bool_decide as Hin.
    + split; [done|]. intros H. exfalso. eapply (H r cs); [left | done].
    + rewrite IH. split.
      * intros H region countries [[= -> ->] | ?]%elem_of_cons; eauto.
      * intros H region countries ?. apply (H region). by right.
Qed.

(** The country lists are pairwise disjoint and none holds
    "global festival": on every listed name the classifier answers the
    region of the list the name is in. *)
Lemma REGION_MAP_listed region countries lc :
  (region, countries) ∈ REGION_MAP → lc ∈ countries →
  lc ≠ "global festival" ∧ first_region lc REGION_MAP = Some region.
Proof.
  unfold REGION_MAP. intros Hr Hc.
  repeat (apply elem_of_cons in Hr as [[= -> ->] | Hr]);
    [| | | by apply elem_of_nil in Hr];
    repeat (apply elem_of_cons in Hc as [-> | Hc]);
    try (by apply elem_of_nil in Hc); by vm_compute.
Qed.

(** The listed names are written in lowercase ASCII. *)
Lemma REGION_MAP_lowercase region countries country :
  (region, countries) ∈ REGION_MAP → country ∈ countries →
  is_ascii country = true ∧ ascii_lower country = country.
Proof.
  unfold REGION_MAP. intros Hr Hc.
  repeat (apply elem_of_cons in Hr as [[= -> ->] | Hr]);
    [| | | by apply elem_of_nil in Hr];
    repeat (apply elem_of_cons in Hc as [-> | Hc]);
    try (by apply elem_of_nil in Hc); by vm_compute.
Qed.

Lemma chapter_to_region_tag E name : chapter_to_region E name ∈ REGION_TAGS.
Proof.
  unfold chapter_to_region, REGION_TAGS. case_bool_decide.
  { rewrite !elem_of_cons. tauto. }
  destruct (first_region _ _) as [region|] eqn:Hf.
  - apply first_region_Some in Hf as (cs & Hr & _).
    unfold REGION_MAP in Hr.
    repeat (apply elem_of_cons in Hr as [[= -> ->] | Hr]);
      [| | | by apply elem_of_nil in Hr]; rewrite !elem_of_cons; tauto.
  - rewrite !elem_of_cons. tauto.
Qed.

(** On a name of ASCII characters the classifier is computed with
    [ascii_lower]. *)
Lemma chapter_to_region_ascii E name :
  lower_on_ascii E → is_ascii name = true →
  chapter_to_region E name =
    if bool_decide (ascii_lower name = "global festival") then "Other"
    else match first_region (ascii_lower name) REGION_MAP with
         | Some region => region
         | None => "EMEA"
         end.
Proof. intros Hlow Ha. unfold chapter_to_region. by rewrite (Hlow name Ha). Qed.

(** The lowercase forms of the fixtures *)

Lemma kelvin_to_k_ascii s : is_ascii s = true → kelvin_to_k s = s.
Proof.
  induction s as [|c s IH]; [done|].
  intros [Hc Hs]%andb_prop. specialize (IH Hs).
  assert (Hne : (nat_of_ascii c =? 226) = false).
  { apply Nat.ltb_lt in Hc. apply Nat.eqb_neq. lia. }
  destruct s as [|c1 [|c2 rest]].
  - reflexivity.
  - reflexivity.
  - change (kelvin_to_k (String c (String c1 (String c2 rest))))
      with (if (nat_of_ascii c =? 226) && (nat_of_ascii c1 =? 132)
               && (nat_of_ascii c2 =? 170)
            then String (ascii_of_nat 107) (kelvin_to_k rest)
            else String c (kelvin_to_k (String c1 (String c2 rest)))).
    rewrite Hne. cbn [andb]. by rewrite IH.
Qed.

Lemma latin1_lower_ascii prev s :
  is_ascii s = true → latin1_lower prev s = ascii_lower s.
Proof.
  revert prev. induction s as [|c s IH]; intros prev; [done|].
  intros [Hc Hs]%andb_prop. cbn [latin1_lower ascii_lower].
  rewrite (IH c Hs). f_equal. unfold latin1_lower_byte.
  apply Nat.ltb_lt in Hc.
  replace (Nat.leb 128 (nat_of_ascii c)) with false
    by (symmetry; apply Nat.leb_gt; lia).
  by rewrite andb_false_r.
Qed.

Lemma sample_lower_ascii s :
  is_ascii s = true → sample_lower s = ascii_lower s.
Proof.
  intros Ha. unfold sample_lower.
  rewrite (kelvin_to_k_ascii s Ha). by apply latin1_lower_ascii.
Qed.

Lemma table_env_lower_on_ascii api_key bot_token chat_id table post :
  lower_on_ascii (table_env api_key bot_token chat_id table post).
Proof. intros s. apply sample_lower_ascii. Qed.

(** C2. The classifier is a function of the lowercase form of the name
    alone: it answers Other exactly when that form is "global festival",
    the region of the country list that holds the form as an element when
    there is one, and EMEA otherwise.  Names with one lowercase form are
    classified alike.  With [str.lower] as it is on ASCII strings, every
    case variation of a listed country gets the region of that country,
    the three spellings of "Global Festival" get Other, and a name that
    merely contains a listed country is not matched. *)
Theorem chapter_to_region_spec (E : Env) (name : string) :
  (str_lower E name = "global festival" → chapter_to_region E name = "Other") ∧
  (∀ region countries,
      (region, countries) ∈ REGION_MAP → str_lower E name ∈ countries →
      chapter_to_region E name = region) ∧
  (str_lower E name ≠ "global festival" →
   (∀ region countries,
       (region, countries) ∈ REGION_MAP → str_lower E name ∉ countries) →
   chapter_to_region E name = "EMEA") ∧
  (∀ variant, str_lower E variant = str_lower E name →
      chapter_to_region E variant = chapter_to_region E name) ∧
  (lower_on_ascii E →
   (∀ region countries country,
       (region, countries) ∈ REGION_MAP → country ∈ countries →
       str_lower E name = str_lower E country →
       chapter_to_region E name = region) ∧
   (is_ascii name = true →
    chapter_to_region E name =
      if bool_decide (ascii_lower name = "global festival") then "Other"
      else match first_region (ascii_lower name) REGION_MAP with
           | Some region => region
           | None => "EMEA"
           end) ∧
   chapter_to_region E "Global Festival" = "Other" ∧
   chapter_to_region E "global festival" = "Other" ∧
   chapter_to_region E "GLOBAL FESTIVAL" = "Other" ∧
   chapter_to_region E "South China" = "EMEA" ∧
   chapter_to_region E "Indonesian" = "EMEA").
Proof.
  assert (Hlisted : ∀ region countries,
             (region, countries) ∈ REGION_MAP → str_lower E name ∈ countries →
             chapter_to_region E name = region).
  { intros region countries Hr Hc.
    destruct (REGION_MAP_listed _ _ _ Hr Hc) as [Hgf Hf].
    unfold chapter_to_region. rewrite bool_decide_eq_false_2 by done.
    by rewrite Hf. }
  split_and!.
  - intros H. unfold chapter_to_region. by rewrite bool_decide_eq_true_2.
  - exact Hlisted.
  - intros Hgf Hnone. unfold chapter_to_region.
    rewrite bool_decide_eq_false_2 by done.
    apply first_region_None in Hnone. by rewrite Hnone.
  - intros variant Hv. unfold chapter_to_region. by rewrite Hv.
  - intros Hlow. split_and!.
    + intros region countries country Hr Hc Hl.
      destruct (REGION_MAP_lowercase _ _ _ Hr Hc) as [Ha Hfix].
      rewrite (Hlow country Ha), Hfix in Hl.
      apply (Hlisted region countries Hr). by rewrite Hl.
    + by apply chapter_to_region_ascii.
    + by rewrite (chapter_to_region_ascii E _ Hlow) by reflexivity.
    + by rewrite (chapter_to_region_ascii E _ Hlow) by reflexivity.
    + by rewrite (chapter_to_region_ascii E _ Hlow) by reflexivity.
    + by rewrite (chapter_to_region_ascii E _ Hlow) by reflexivity.
    + by rewrite (chapter_to_region_ascii E _ Hlow) by reflexivity.
Qed.

Lemma chapter_to_region_spec_witness :
  chapter_to_region festival_env "BRAZIL" = "AMR" ∧
  chapter_to_region festival_env "gLoBaL fEsTiVaL" = "Other" ∧
  chapter_to_region festival_env "Atlantis" = "EMEA" ∧
  chapter_to_region festival_env "South Korea"
  = chapter_to_region festival_env "SOUTH KOREA" ∧
  lower_on_ascii festival_env ∧
  chapter_to_region festival_env South_Korea_kelvin = "APJ" ∧
  chapter_to_region festival_env "Global Festival" = "Other".
Proof.
  split_and!.
  - apply (proj1 (proj2 (chapter_to_region_spec festival_env "BRAZIL"))
             "AMR" [ "argentina"; "brazil"; "canada"; "costa rica";
                     "mexico"; "united states of america" ]).
    + left.
    + right. left.
  - apply (proj1 (chapter_to_region_spec festival_env "gLoBaL fEsTiVaL")).
    reflexivity.
  - apply (proj1 (proj2 (proj2 (chapter_to_region_spec festival_env "Atlantis")))).
    + discriminate.
    + apply first_region_None. reflexivity.
  - apply (proj1 (proj2 (proj2 (proj2
             (chapter_to_region_spec festival_env "SOUTH KOREA"))))).
    reflexivity.
  - apply table_env_lower_on_ascii.
  - destruct (chapter_to_region_spec festival_env South_Korea_kelvin)
      as (_ & _ & _ & _ & H).
    destruct (H (table_env_lower_on_ascii _ _ _ _ _)) as (Hvar & _).
    apply (Hvar "APJ" [ "bangladesh"; "india"; "indonesia"; "japan";
                        "malaysia"; "singapore"; "south korea"; "taiwan";
                        "thailand"; "vietnam"; "australia"; "new zealand" ]
                "south korea").
    + right. right. left.
    + do 6 right. left.
    + reflexivity.
  - destruct (chapter_to_region_spec festival_env "Global Festival")
      as (_ & _ & _ & _ & H).
    destruct (H (table_env_lower_on_ascii _ _ _ _ _)) as (_ & _ & Hgf & _).
    exact Hgf.
Defined.

(** ** The monad *)

Lemma bind_Done {A B} (m : M A) (k : A → M B) tr a tr' :
  m tr = (Done a, tr') → (m ≫= k) tr = k a tr'.
Proof. intros H. unfold mbind, M_bind. by rewrite H. Qed.

Lemma bind_Raised {A B} (m : M A) (k : A → M B) tr e tr' :
  m tr = (Raised e, tr') → (m ≫= k) tr = (Raised e, tr').
Proof. intros H. unfold mbind, M_bind. by rewrite H. Qed.

Lemma bind_OutOfFuel {A B} (m : M A) (k : A → M B) tr tr' :
  m tr = (OutOfFuel, tr') → (m ≫= k) tr = (OutOfFuel, tr').
Proof. intros H. unfold mbind, M_bind. by rewrite H. Qed.

(** ** The paginated fetcher *)

Lemma truthy_BASE_URL path : truthy (BASE_URL +:+ path) = true.
Proof. reflexivity. Qed.

Lemma next_or_None_truthy n u : next_or_None n = Some u → truthy u = true.
Proof.
  destruct n as [| |u'|]; simpl; try discriminate.
  destruct (truthy u') eqn:Hu; [|discriminate]. by intros [= <-].
Qed.

Lemma next_or_None_falsy n :
  next_or_None n = None ↔
  n = NextAbsent ∨ n = NextNull ∨ n = NextUrl "" ∨ n = NextFalsy.
Proof.
  destruct n as [| |u|]; simpl; try (split; [tauto | done]).
  unfold truthy. case_bool_decide as Hu; simpl.
  - subst u. split; [tauto | done].
  - split; [done|]. intros [?|[?|[[= ?]|?]]]; done.
Qed.

Lemma get_page_ok E tr u params p :
  requests_get E tr u params = page_response p →
  is_error_status (page_status p) = false →
  get_page E u params tr =
    (Done (page_batch p, next_or_None (page_next p)),
     tr ++ [EvGet u params (page_response p)]).
Proof.
  intros Hr Hs. unfold get_page, http_get, mbind, M_bind.
  rewrite Hr. unfold page_response. by rewrite Hs.
Qed.

Lemma get_page_Done E tr u params d next tr' :
  get_page E u params tr = (Done (d, next), tr') →
  ∃ p, requests_get E tr u params = page_response p ∧
       is_error_status (page_status p) = false ∧
       d = page_batch p ∧ next = next_or_None (page_next p) ∧
       tr' = tr ++ [EvGet u params (page_response p)].
Proof.
  unfold get_page, http_get, mbind, M_bind.
  destruct (requests_get E tr u params) as [e|st [[[dat|] nxt]|]] eqn:Hr;
    try discriminate; destruct (is_error_status st) eqn:Hs; try discriminate.
  intros [= <- <- <-].
  by exists {| page_status := st; page_batch := dat; page_next := nxt |}.
Qed.

Lemma get_page_trace E tr u params :
  ∃ r, (get_page E u params tr).2 = tr ++ [EvGet u params r] ∧
       r = requests_get E tr u params.
Proof.
  exists (requests_get E tr u params). split; [|done].
  unfold get_page, http_get, mbind, M_bind.
  destruct (requests_get E tr u params) as [e|st [[[dat|] nxt]|]];
    try done; by destruct (is_error_status st).
Qed.

Lemma cf_get_all_loop_step E fuel u params items tr :
  truthy u = true →
  cf_get_all_loop E (S fuel) (Some u) params items tr =
    ('(d, next) ← get_page E u params;
     cf_get_all_loop E fuel next None (items ++ d)) tr.
Proof. intros Hu. simpl. by rewrite Hu. Qed.

Lemma cf_get_all_loop_None E fuel params items tr :
  cf_get_all_loop E fuel None params items tr = (Done items, tr).
Proof. by destruct fuel. Qed.

Lemma cf_get_all_loop_serves E pages :
  ∀ fuel tr u params items,
    truthy u = true → serves E tr u params pages → length pages ≤ fuel →
    cf_get_all_loop E fuel (Some u) params items tr =
      (Done (items ++ concat (page_batch <$> pages)),
       tr ++ page_events u params pages).
Proof.
  induction pages as [|p rest IH]; intros fuel tr u params items Hu Hs Hlen;
    [done|].
  destruct Hs as (Hr & Hst & Hnext).
  destruct fuel as [|fuel]; [simpl in Hlen; lia|].
  rewrite cf_get_all_loop_step by done.
  erewrite bind_Done by (by apply get_page_ok).
  simpl. destruct (next_or_None (page_next p)) as [u'|] eqn:Hn.
  - destruct rest as [|p' rest']; [done|].
    rewrite (IH fuel _ u' None) ; [| by eapply next_or_None_truthy | done
                                  | simpl in *; lia].
    by rewrite <- !(assoc_L (++)).
  - destruct rest; [|done]. rewrite cf_get_all_loop_None. simpl.
    by rewrite !app_nil_r.
Qed.

Lemma cf_get_all_loop_Done E fuel :
  ∀ tr u params items out tr',
    truthy u = true →
    cf_get_all_loop E fuel (Some u) params items tr = (Done out, tr') →
    ∃ pages, serves E tr u params pages ∧ length pages ≤ fuel ∧
             out = items ++ concat (page_batch <$> pages) ∧
             tr' = tr ++ page_events u params pages.
Proof.
  induction fuel as [|fuel IH]; intros tr u params items out tr' Hu.
  { simpl. by rewrite Hu. }
  rewrite cf_get_all_loop_step by done.
  unfold mbind, M_bind.
  destruct (get_page E u params tr) as [[[d next]| |] tr1] eqn:Hp;
    [|done|done].
  apply get_page_Done in Hp as (p & Hr & Hst & -> & -> & ->).
  destruct (next_or_None (page_next p)) as [u'|] eqn:Hn.
  - intros H. apply IH in H as (pages & Hs & Hlen & -> & ->);
      [|by eapply next_or_None_truthy].
    exists (p :: pages). simpl. rewrite Hn.
    destruct pages as [|p' pages']; [done|].
    split_and!; [done|done|done|simpl in *; lia| |].
    + by rewrite <- (assoc_L (++)).
    + by rewrite <- (assoc_L (++)).
  - rewrite cf_get_all_loop_None. intros [= <- <-].
    exists [p]. simpl. rewrite Hn, !app_nil_r.
    split_and!; [done|done|done|lia|done|done].
Qed.

Lemma cf_get_all_loop_always_more E :
  always_more E →
  ∀ fuel tr u params items,
    truthy u = true →
    ∃ evs, cf_get_all_loop E fuel (Some u) params items tr
             = (OutOfFuel, tr ++ evs) ∧
           length evs = fuel ∧ Forall is_get evs.
Proof.
  intros Hmore. induction fuel as [|fuel IH]; intros tr u params items Hu.
  { exists []. simpl. by rewrite Hu, app_nil_r. }
  destruct (Hmore tr u params) as (p & u' & Hr & Hst & Hn).
  rewrite cf_get_all_loop_step by done.
  erewrite bind_Done by (by apply get_page_ok).
  rewrite Hn.
  destruct (IH (tr ++ [EvGet u params (page_response p)]) u' None
               (items ++ page_batch p)) as (evs & Hrun & Hlen & Hget);
    [by eapply next_or_None_truthy|].
  exists (EvGet u params (page_response p) :: evs).
  rewrite Hrun, <- (assoc_L (++)). split_and!; [done|simpl; lia|].
  by constructor.
Qed.

Lemma page_events_length E pages :
  ∀ tr u params, serves E tr u params pages →
                 length (page_events u params pages) = length pages.
Proof.
  induction pages as [|p rest IH]; intros tr u params Hs; [done|].
  destruct Hs as (_ & _ & Hnext). simpl.
  destruct (next_or_None (page_next p)) as [u'|]; destruct rest; try done.
  f_equal. by eapply IH.
Qed.

Lemma page_events_requests E pages :
  ∀ tr u params, serves E tr u params pages →
    get_request <$> page_events u params pages =
    Some <$> ((u, params) :: ((λ u', (u', None)) <$> followed pages)).
Proof.
  induction pages as [|p rest IH]; intros tr u params Hs; [done|].
  destruct Hs as (_ & _ & Hnext). unfold followed in *. simpl.
  destruct (next_or_None (page_next p)) as [u'|]; destruct rest; try done.
  simpl. f_equal. by eapply IH.
Qed.

(** C4. A fetch that is answered with a finite sequence of successful
    pages returns the concatenation of the batches in page order and
    issues exactly one request per page: the first to the endpoint with the
    caller's query parameters, each later one to the next-page reference
    of the page before, without query parameters.  On the fixture of three
    pages of 100, 100 and 7 records it returns the 207 records in order
    after 3 requests. *)
Theorem cf_get_all_concatenates_pages :
  (∀ E fuel path params tr pages,
      serves E tr (BASE_URL +:+ path) params pages →
      length pages ≤ fuel →
      cf_get_all E fuel path params tr =
        (Done (concat (page_batch <$> pages)),
         tr ++ page_events (BASE_URL +:+ path) params pages) ∧
      length (page_events (BASE_URL +:+ path) params pages) = length pages ∧
      get_request <$> page_events (BASE_URL +:+ path) params pages =
        Some <$> ((BASE_URL +:+ path, params) ::
                  ((λ u, (u, None)) <$> followed pages))) ∧
  (let run := cf_get_all three_pages_env 3 "/entry"
                (entry_params CATEGORY_13_17) [] in
   run.1 = Done (numbered_entry <$> seq 0 207) ∧
   length (numbered_entry <$> seq 0 207) = 207 ∧
   NoDup (numbered_entry <$> seq 0 207) ∧
   length run.2 = 3 ∧
   Forall is_get run.2).
Proof.
  split.
  - intros E fuel path params tr pages Hs Hlen. split_and!.
    + unfold cf_get_all.
      by rewrite (cf_get_all_loop_serves E pages)
        by auto using truthy_BASE_URL.
    + by eapply page_events_length.
    + by eapply page_events_requests.
  - split_and!.
    + vm_compute. reflexivity.
    + vm_compute. reflexivity.
    + apply (bool_decide_unpack _). vm_compute. exact I.
    + vm_compute. reflexivity.
    + vm_compute. repeat constructor.
Qed.

Lemma cf_get_all_concatenates_pages_witness :
  serves three_pages_env [] (BASE_URL +:+ "/entry")
         (entry_params CATEGORY_13_17) three_pages ∧
  length three_pages ≤ 3 ∧
  cf_get_all three_pages_env 3 "/entry" (entry_params CATEGORY_13_17) [] =
    (Done (concat (page_batch <$> three_pages)),
     [] ++ page_events (BASE_URL +:+ "/entry") (entry_params CATEGORY_13_17)
                       three_pages).
Proof.
  assert (Hs : serves three_pages_env [] (BASE_URL +:+ "/entry")
                      (entry_params CATEGORY_13_17) three_pages).
  { repeat split. }
  assert (Hlen : length three_pages ≤ 3) by (simpl; lia).
  split; [exact Hs|]. split; [exact Hlen|].
  exact (proj1 (proj1 cf_get_all_concatenates_pages three_pages_env 3 "/entry"
                  (entry_params CATEGORY_13_17) [] three_pages Hs Hlen)).
Defined.

(** C10. A fetch returns exactly when it is answered with finitely many
    successful pages the last of which has a falsy next-page reference
    (absent, null, the empty string or another falsy value) while all the
    pages before have a truthy one.  An empty-string reference ends the
    fetch after that page without a further request.  When every request
    is answered with a page that carries a truthy reference, the fetch
    exceeds every bound on the number of its iterations: it never
    returns. *)
Theorem cf_get_all_returns_iff (E : Env) (path : string)
    (params : option Params) (tr : Trace) :
  (∀ items tr',
      (∃ fuel, cf_get_all E fuel path params tr = (Done items, tr')) ↔
      (∃ pages, serves E tr (BASE_URL +:+ path) params pages ∧
                items = concat (page_batch <$> pages) ∧
                tr' = tr ++ page_events (BASE_URL +:+ path) params pages)) ∧
  (∀ n, next_or_None n = None ↔
        n = NextAbsent ∨ n = NextNull ∨ n = NextUrl "" ∨ n = NextFalsy) ∧
  (∀ p fuel,
      requests_get E tr (BASE_URL +:+ path) params = page_response p →
      is_error_status (page_status p) = false →
      page_next p = NextUrl "" →
      cf_get_all E (S fuel) path params tr =
        (Done (page_batch p),
         tr ++ [EvGet (BASE_URL +:+ path) params (page_response p)])) ∧
  (always_more E →
   ∀ fuel, ∃ evs,
     cf_get_all E fuel path params tr = (OutOfFuel, tr ++ evs) ∧
     length evs = fuel ∧ Forall is_get evs).
Proof.
  split_and!.
  - intros items tr'. split.
    + intros [fuel H]. unfold cf_get_all in H.
      apply cf_get_all_loop_Done in H as (pages & Hs & _ & -> & ->);
        [|apply truthy_BASE_URL].
      by exists pages.
    + intros (pages & Hs & -> & ->). exists (length pages).
      unfold cf_get_all.
      by rewrite (cf_get_all_loop_serves E pages)
        by auto using truthy_BASE_URL.
  - apply next_or_None_falsy.
  - intros p fuel Hr Hst Hn. unfold cf_get_all.
    rewrite (cf_get_all_loop_serves E [p]);
      [| apply truthy_BASE_URL | | simpl; lia].
    + simpl. by rewrite Hn, app_nil_r.
    + simpl. by rewrite Hn.
  - intros Hmore fuel.
    by apply cf_get_all_loop_always_more; [|apply truthy_BASE_URL].
Qed.

Lemma cycle_env_always_more : always_more cycle_env.
Proof.
  intros tr u params.
  exists {| page_status := 200; page_batch := [];
            page_next := NextUrl "https://api.us.cr4ce.com/entry?page=1" |},
         "https://api.us.cr4ce.com/entry?page=1".
  repeat split.
Qed.

Lemma cf_get_all_returns_iff_witness :
  always_more cycle_env ∧
  (∃ evs, cf_get_all cycle_env 4 "/entry" None [] = (OutOfFuel, [] ++ evs) ∧
          length evs = 4 ∧ Forall is_get evs) ∧
  cf_get_all festival_env 1 "/entry" (entry_params CATEGORY_13_17) [] =
    (Done [EntryRecord "A" "submitted"; EntryRecord "A" "pending";
           EntryRecord "C" "submitted"],
     [] ++ [EvGet (BASE_URL +:+ "/entry") (entry_params CATEGORY_13_17)
              (one_page [EntryRecord "A" "submitted"; EntryRecord "A" "pending";
                         EntryRecord "C" "submitted"] (NextUrl ""))]).
Proof.
  split; [exact cycle_env_always_more|]. split.
  - exact (proj2 (proj2 (proj2 (cf_get_all_returns_iff cycle_env "/entry" None [])))
             cycle_env_always_more 4).
  - exact (proj1 (proj2 (proj2 (cf_get_all_returns_iff festival_env "/entry"
                                  (entry_params CATEGORY_13_17) [])))
             {| page_status := 200;
                page_batch := [EntryRecord "A" "submitted";
                               EntryRecord "A" "pending";
                               EntryRecord "C" "submitted"];
                page_next := NextUrl "" |} 0 eq_refl eq_refl eq_refl).
Defined.

(** ** What a computation appends to the trace *)

Lemma emits_ret {A} P (a : A) : emits P (mret a).
Proof. intros tr. exists []. by rewrite app_nil_r. Qed.

Lemma emits_raise {A} P e : emits P (raise (A:=A) e).
Proof. intros tr. exists []. by rewrite app_nil_r. Qed.

Lemma emits_emit (P : Event → Prop) ev : P ev → emits P (emit ev).
Proof. intros HP tr. exists [ev]. split; [done|]. by constructor. Qed.

Lemma emits_bind {A B} P (m : M A) (k : A → M B) :
  emits P m → (∀ a, emits P (k a)) → emits P (m ≫= k).
Proof.
  intros Hm Hk tr. destruct (Hm tr) as (evs1 & Htr & H1).
  unfold mbind, M_bind.
  destruct (m tr) as [[a|e|] tr1]; simpl in Htr; subst tr1;
    [|by exists evs1..].
  destruct (Hk a (tr ++ evs1)) as (evs2 & Htr2 & H2).
  exists (evs1 ++ evs2). rewrite Htr2, (assoc_L (++)).
  split; [done|]. by apply Forall_app.
Qed.

(** The unit of [fetch_phase]: a computation that appends no request. *)
Lemma fetch_phase_emits {A} (m : M A) :
  emits (λ ev, ¬ is_get ev ∧ ¬ artifact_event ev ∧ ¬ marker ev) m →
  fetch_phase m.
Proof.
  intros Hm tr. destruct (Hm tr) as (evs & Htr & H).
  exists evs. split_and!; [done| |left].
  - eapply Forall_impl; [done|]. intros ev (_ & ? & ?). tauto.
  - eapply Forall_impl; [done|]. intros [] (Hg & _ & _); simpl in *; tauto.
Qed.

Lemma fetch_phase_bind {A B} (m : M A) (k : A → M B) :
  fetch_phase m → (∀ a, fetch_phase (k a)) → fetch_phase (m ≫= k).
Proof.
  intros Hm Hk tr. destruct (Hm tr) as (evs1 & Htr & Hna1 & H1).
  unfold mbind, M_bind.
  destruct (m tr) as [[a|e|] tr1] eqn:Hmtr; simpl in *; subst tr1;
    [|exists evs1; split_and!; [done|done|];
      (destruct H1 as [H1|(evs0 & ev & st & ? & ? & ? & Heq)];
       [by left|right; exists evs0, ev, st;
                split_and!; [done|done|done|congruence]])..].
  destruct H1 as [H1|(? & ? & ? & _ & _ & _ & ?)]; [|done].
  destruct (Hk a (tr ++ evs1)) as (evs2 & Htr2 & Hna2 & H2).
  exists (evs1 ++ evs2). rewrite Htr2, (assoc_L (++)).
  split_and!; [done|by apply Forall_app|].
  destruct H2 as [H2|(evs0 & ev & st & -> & Hev & H0 & Hout)].
  - left. by apply Forall_app.
  - right. exists (evs1 ++ evs0), ev, st.
    rewrite (assoc_L (++)). split_and!; [done|done|by apply Forall_app|done].
Qed.

Lemma fetch_phase_get_page E u params : fetch_phase (get_page E u params).
Proof.
  intros tr. exists [EvGet u params (requests_get E tr u params)].
  unfold get_page, http_get, mbind, M_bind.
  assert (Hna : Forall (λ ev, ¬ artifact_event ev ∧ ¬ marker ev)
                       [EvGet u params (requests_get E tr u params)]).
  { constructor; [|done]. split; [tauto|]. by intros [|]. }
  destruct (requests_get E tr u params) as [e|st json] eqn:Hr.
  { split_and!; [done|done|left]. constructor; [tauto|done]. }
  destruct (is_error_status st) eqn:Hst.
  - split_and!; [done|done|right].
    exists [], (EvGet u params (Resp st json)), st. by split_and!.
  - assert (Hok : Forall (λ ev, ¬ refused ev) [EvGet u params (Resp st json)]).
    { constructor; [|done]. simpl. by rewrite Hst. }
    destruct json as [[[d|] nxt]|]; by split_and!; [..|left].
Qed.

Lemma fetch_phase_cf_get_all_loop E fuel :
  ∀ url params items, fetch_phase (cf_get_all_loop E fuel url params items).
Proof.
  induction fuel as [|fuel IH]; intros [u|] params items;
    try (apply fetch_phase_emits, emits_ret).
  - simpl. destruct (truthy u); [|apply fetch_phase_emits, emits_ret].
    intros tr. exists []. rewrite app_nil_r. split_and!; [done|done|by left].
  - simpl. destruct (truthy u); [|apply fetch_phase_emits, emits_ret].
    apply fetch_phase_bind; [apply fetch_phase_get_page|].
    intros [d next]. apply IH.
Qed.

Lemma fetch_phase_cf_get_all E fuel path params :
  fetch_phase (cf_get_all E fuel path params).
Proof. apply fetch_phase_cf_get_all_loop. Qed.

Lemma quiet_log level msg :
  msg ≠ MsgRunStart → msg ≠ MsgRunEnd →
  ¬ is_get (EvLog level msg) ∧ ¬ artifact_event (EvLog level msg) ∧
  ¬ marker (EvLog level msg).
Proof.
  intros H1 H2. split_and!; [tauto|tauto|].
  unfold marker, start_marker, end_marker. intros [[=]|[=]]; done.
Qed.

Lemma emits_silent {A} P (m : M A) : (∀ tr, (m tr).2 = tr) → emits P m.
Proof. intros H tr. exists []. by rewrite app_nil_r, H. Qed.

Lemma fetch_chapters_loop_silent E recs :
  ∀ chapters tr, (fetch_chapters_loop E recs chapters tr).2 = tr.
Proof.
  induction recs as [|[slug nm|ch st] rest IH]; intros chapters tr;
    [done| |done].
  apply IH.
Qed.

Lemma count_entries_silent sub prog es :
  ∀ counts tr, (count_entries sub prog es counts tr).2 = tr.
Proof.
  induction es as [|[slug nm|ch st] rest IH]; intros counts tr;
    [done|done|].
  apply IH.
Qed.

Lemma compose_rows_silent items counts :
  ∀ i tr, (compose_rows i items counts tr).2 = tr.
Proof.
  induction items as [|[slug meta] rest IH]; intros i tr; [done|].
  simpl. destruct (counts !! slug) as [c|]; [|done].
  unfold mbind, M_bind. specialize (IH (S i) tr).
  by destruct (compose_rows (S i) rest counts tr) as [[rows|e|] tr1].
Qed.

Lemma fetch_phase_log level msg :
  msg ≠ MsgRunStart → msg ≠ MsgRunEnd → fetch_phase (emit (EvLog level msg)).
Proof. intros. by apply fetch_phase_emits, emits_emit, quiet_log. Qed.

Lemma fetch_phase_fetch_chapters E fuel : fetch_phase (fetch_chapters E fuel).
Proof.
  apply fetch_phase_bind; [apply fetch_phase_cf_get_all|]. intros recs.
  apply fetch_phase_bind.
  { apply fetch_phase_emits, emits_silent, fetch_chapters_loop_silent. }
  intros chapters. apply fetch_phase_bind; [by apply fetch_phase_log|].
  intros _. apply fetch_phase_emits, emits_ret.
Qed.

Lemma fetch_phase_gather_entries E fuel category_slug :
  fetch_phase (gather_entries E fuel category_slug).
Proof.
  apply fetch_phase_bind; [by apply fetch_phase_log|].
  intros _. apply fetch_phase_cf_get_all.
Qed.

Lemma fetch_phase_build_counts E fuel chapters :
  fetch_phase (build_counts E fuel chapters).
Proof.
  apply fetch_phase_bind; [apply fetch_phase_gather_entries|]. intros es.
  apply fetch_phase_bind.
  { apply fetch_phase_emits, emits_silent, count_entries_silent. }
  intros counts.
  apply fetch_phase_bind; [apply fetch_phase_gather_entries|]. intros es'.
  apply fetch_phase_emits, emits_silent, count_entries_silent.
Qed.

Lemma fetch_phase_compose E chapters counts :
  fetch_phase (compose E chapters counts).
Proof. apply fetch_phase_emits, emits_silent, compose_rows_silent. Qed.

(** From the workbook on, no request is issued and no marker is written. *)
Lemma emits_make_workbook E rows :
  emits (λ ev, ¬ is_get ev ∧ ¬ marker ev) (make_workbook E rows).
Proof.
  intros tr. unfold make_workbook.
  set (file_path := {| parent := ""; name := _ |}).
  exists [EvExcel file_path rows (to_excel E tr file_path rows)].
  split; [by destruct (to_excel E tr file_path rows)|].
  constructor; [|done]. split; [tauto|]. by intros [|].
Qed.

Lemma emits_open_file E file_path :
  emits (λ ev, ¬ is_get ev ∧ ¬ marker ev) (open_file E file_path).
Proof.
  intros tr. unfold open_file.
  exists [EvOpen file_path (open_rb E tr file_path)].
  split; [by destruct (open_rb E tr file_path)|].
  constructor; [|done]. split; [tauto|]. by intros [|].
Qed.

Lemma emits_http_post E url chat_id caption document :
  emits (λ ev, ¬ is_get ev ∧ ¬ marker ev)
        (http_post E url chat_id caption document).
Proof.
  intros tr.
  exists [EvPost url chat_id caption document
                 (requests_post E tr url chat_id caption document)].
  split; [done|].
  constructor; [|done]. split; [tauto|]. by intros [|].
Qed.

Lemma emits_log level msg :
  msg ≠ MsgRunStart → msg ≠ MsgRunEnd →
  emits (λ ev, ¬ is_get ev ∧ ¬ marker ev) (emit (EvLog level msg)).
Proof.
  intros. apply emits_emit. destruct (quiet_log level msg); tauto.
Qed.

Lemma emits_send_to_telegram E file_path :
  emits (λ ev, ¬ is_get ev ∧ ¬ marker ev) (send_to_telegram E file_path).
Proof.
  unfold send_to_telegram.
  destruct (negb _); [by apply emits_log|].
  apply emits_bind; [apply emits_open_file|]. intros _.
  apply emits_bind; [apply emits_http_post|]. intros [e|st text].
  - apply emits_raise.
  - destruct (ok st); by apply emits_log.
Qed.

Lemma run_phase_emits {A} (m : M A) :
  emits (λ ev, ¬ is_get ev ∧ ¬ marker ev) m → run_phase m.
Proof.
  intros Hm tr. destruct (Hm tr) as (evs & Htr & H).
  exists evs. split_and!; [done| |left].
  - eapply Forall_impl; [done|]. intros ev (_ & ?). tauto.
  - eapply Forall_impl; [done|]. intros [] (Hg & _); simpl in *; tauto.
Qed.

Lemma run_phase_bind {A B} (m : M A) (k : A → M B) :
  fetch_phase m → (∀ a, run_phase (k a)) → run_phase (m ≫= k).
Proof.
  intros Hm Hk tr. destruct (Hm tr) as (evs1 & Htr & Hna1 & H1).
  assert (Hnm1 : Forall (λ ev, ¬ marker ev) evs1).
  { eapply Forall_impl; [exact Hna1|]. intros ev (_ & ?). tauto. }
  assert (Hnart1 : Forall (λ ev, ¬ artifact_event ev) evs1).
  { eapply Forall_impl; [exact Hna1|]. intros ev (? & _). tauto. }
  unfold mbind, M_bind.
  destruct (m tr) as [[a|e|] tr1] eqn:Hmtr; simpl in *; subst tr1;
    [|exists evs1; split_and!; [done|done|];
      (destruct H1 as [H1|(evs0 & ev & st & ? & ? & ? & Heq)];
       [by left|right; exists evs0, ev, st;
                split_and!; [done|done|done|done|congruence]])..].
  destruct H1 as [H1|(? & ? & ? & _ & _ & _ & ?)]; [|done].
  destruct (Hk a (tr ++ evs1)) as (evs2 & Htr2 & Hnm2 & H2).
  exists (evs1 ++ evs2). rewrite Htr2, (assoc_L (++)).
  split_and!; [done|by apply Forall_app|].
  destruct H2 as [H2|(evs0 & ev & st & -> & Hev & H0 & Hnart & Hout)].
  - left. by apply Forall_app.
  - right. exists (evs1 ++ evs0), ev, st.
    rewrite (assoc_L (++)).
    split_and!; [done|done|by apply Forall_app| |done].
    rewrite <- (assoc_L (++)). by apply Forall_app.
Qed.

Lemma run_phase_main_body E fuel : run_phase (main_body E fuel).
Proof.
  apply run_phase_bind; [apply fetch_phase_fetch_chapters|]. intros chapters.
  apply run_phase_bind; [apply fetch_phase_build_counts|]. intros counts.
  apply run_phase_bind; [apply fetch_phase_compose|]. intros rows.
  apply run_phase_emits.
  apply emits_bind; [apply emits_make_workbook|]. intros wb_path.
  apply emits_bind; [by apply emits_log|]. intros _.
  apply emits_send_to_telegram.
Qed.

(** ** Running out of fuel *)

Lemma exhausts_never {A} fuel (m : M A) :
  (∀ tr, (m tr).1 ≠ OutOfFuel) → exhausts fuel m.
Proof. intros H tr tr' Hm. specialize (H tr). by rewrite Hm in H. Qed.

Lemma exhausts_bind {A B} fuel (m : M A) (k : A → M B) :
  emits (λ _, True) m → exhausts fuel m → (∀ a, exhausts fuel (k a)) →
  exhausts fuel (m ≫= k).
Proof.
  intros Hem Hm Hk tr tr'. unfold mbind, M_bind.
  destruct (Hem tr) as (evs1 & Htr1 & _).
  destruct (m tr) as [[a|e|] tr1] eqn:Hmtr; [|done|].
  - simpl in Htr1. subst tr1. intros H.
    apply Hk in H as (evs & gets & -> & ? & ?).
    exists (evs1 ++ evs), gets. by rewrite <- !(assoc_L (++)).
  - intros [= <-]. by apply Hm.
Qed.

Lemma emits_True_fetch_phase {A} (m : M A) : fetch_phase m → emits (λ _, True) m.
Proof.
  intros Hm tr. destruct (Hm tr) as (evs & Htr & _).
  exists evs. split; [done|]. by apply Forall_forall.
Qed.

Lemma get_page_not_OutOfFuel E u params tr :
  (get_page E u params tr).1 ≠ OutOfFuel.
Proof.
  unfold get_page, http_get, mbind, M_bind.
  destruct (requests_get E tr u params) as [e|st [[[d|] nxt]|]];
    try done; by destruct (is_error_status st).
Qed.

Lemma cf_get_all_loop_OutOfFuel E fuel :
  ∀ url params items tr tr',
    cf_get_all_loop E fuel url params items tr = (OutOfFuel, tr') →
    ∃ gets, tr' = tr ++ gets ∧ Forall is_get gets ∧ length gets = fuel.
Proof.
  induction fuel as [|fuel IH]; intros [u|] params items tr tr'; simpl;
    try done; destruct (truthy u); try done.
  - intros [= <-]. exists []. by rewrite app_nil_r.
  - unfold mbind, M_bind.
    pose proof (get_page_not_OutOfFuel E u params tr) as Hne.
    destruct (get_page_trace E tr u params) as (r & Htr & _).
    destruct (get_page E u params tr) as [[[d next]|e|] tr1]; [|done|done].
    simpl in Htr. subst tr1. intros H.
    apply IH in H as (gets & -> & Hg & Hlen).
    exists (EvGet u params r :: gets). rewrite <- (assoc_L (++)).
    split_and!; [done|by constructor|simpl; lia].
Qed.

Lemma exhausts_cf_get_all E fuel path params :
  exhausts fuel (cf_get_all E fuel path params).
Proof.
  intros tr tr' H. apply cf_get_all_loop_OutOfFuel in H as (gets & ? & ? & ?).
  by exists [], gets.
Qed.

Lemma silent_not_OutOfFuel_fetch_chapters_loop E recs :
  ∀ chapters tr, (fetch_chapters_loop E recs chapters tr).1 ≠ OutOfFuel.
Proof.
  induction recs as [|[slug nm|ch st] rest IH]; intros chapters tr;
    [done| |done].
  apply IH.
Qed.

Lemma count_entries_not_OutOfFuel sub prog es :
  ∀ counts tr, (count_entries sub prog es counts tr).1 ≠ OutOfFuel.
Proof.
  induction es as [|[slug nm|ch st] rest IH]; intros counts tr;
    [done|done|].
  apply IH.
Qed.

Lemma compose_rows_not_OutOfFuel items counts :
  ∀ i tr, (compose_rows i items counts tr).1 ≠ OutOfFuel.
Proof.
  induction items as [|[slug meta] rest IH]; intros i tr; [done|].
  simpl. destruct (counts !! slug) as [c|]; [|done].
  unfold mbind, M_bind. specialize (IH (S i) tr).
  by destruct (compose_rows (S i) rest counts tr) as [[rows|e|] tr1].
Qed.

Lemma exhausts_fetch_chapters E fuel : exhausts fuel (fetch_chapters E fuel).
Proof.
  apply exhausts_bind;
    [apply emits_True_fetch_phase, fetch_phase_cf_get_all
    |apply exhausts_cf_get_all|].
  intros recs. apply exhausts_never. intros tr.
  unfold mbind, M_bind.
  pose proof (silent_not_OutOfFuel_fetch_chapters_loop E recs [] tr).
  by destruct (fetch_chapters_loop E recs [] tr) as [[?|?|] ?].
Qed.

Lemma exhausts_gather_entries E fuel category_slug :
  exhausts fuel (gather_entries E fuel category_slug).
Proof.
  apply exhausts_bind; [by apply emits_emit|by apply exhausts_never|].
  intros _. apply exhausts_cf_get_all.
Qed.

Lemma exhausts_count_entries fuel sub prog es counts :
  exhausts fuel (count_entries sub prog es counts).
Proof. apply exhausts_never, count_entries_not_OutOfFuel. Qed.

Lemma exhausts_build_counts E fuel chapters :
  exhausts fuel (build_counts E fuel chapters).
Proof.
  apply exhausts_bind;
    [apply emits_True_fetch_phase, fetch_phase_gather_entries
    |apply exhausts_gather_entries|]. intros es.
  apply exhausts_bind;
    [apply emits_silent, count_entries_silent
    |apply exhausts_count_entries|]. intros counts.
  apply exhausts_bind;
    [apply emits_True_fetch_phase, fetch_phase_gather_entries
    |apply exhausts_gather_entries|]. intros es'.
  apply exhausts_count_entries.
Qed.

Lemma send_to_telegram_not_OutOfFuel E file_path tr :
  (send_to_telegram E file_path tr).1 ≠ OutOfFuel.
Proof.
  unfold send_to_telegram. destruct (negb _); [done|].
  unfold mbind, M_bind, open_file, http_post.
  destruct (open_rb E tr file_path); [done|].
  destruct (requests_post E _ _ _ _ _) as [e|st text]; [done|].
  by destruct (ok st).
Qed.

Lemma exhausts_main_body E fuel : exhausts fuel (main_body E fuel).
Proof.
  apply exhausts_bind;
    [apply emits_True_fetch_phase, fetch_phase_fetch_chapters
    |apply exhausts_fetch_chapters|]. intros chapters.
  apply exhausts_bind;
    [apply emits_True_fetch_phase, fetch_phase_build_counts
    |apply exhausts_build_counts|]. intros counts.
  apply exhausts_bind;
    [apply emits_silent, compose_rows_silent
    |apply exhausts_never, compose_rows_not_OutOfFuel|]. intros rows.
  apply exhausts_never. intros tr. unfold mbind, M_bind, make_workbook.
  destruct (to_excel E tr _ rows); [done|]. simpl.
  apply send_to_telegram_not_OutOfFuel.
Qed.

(** ** The orchestrator *)

Lemma main_no_key E fuel tr :
  truthy (API_KEY E) = false →
  main E fuel tr = (Done tt, tr ++ [EvLog ERROR MsgKeyMissing]).
Proof. intros H. unfold main. by rewrite H. Qed.

(** With a key, [main] is the start marker, the body, the record of the
    exception if the body raised one, and the end marker. *)
Lemma main_with_key E fuel tr :
  truthy (API_KEY E) = true →
  main E fuel tr =
    match main_body E fuel (tr ++ [start_marker]) with
    | (Done _, tr') => (Done tt, tr' ++ [end_marker])
    | (Raised e, tr') =>
        (Done tt, tr' ++ [EvLog ERROR (MsgRunFailed e); end_marker])
    | (OutOfFuel, tr') => (OutOfFuel, tr')
    end.
Proof.
  intros H. unfold main. rewrite H. simpl.
  unfold mbind, M_bind, logging_info, logging_exception, emit, try_except.
  simpl. fold start_marker.
  destruct (main_body E fuel (tr ++ [start_marker])) as [[[]|e|] tr'];
    try done.
  by rewrite <- (assoc_L (++)).
Qed.

Lemma main_never_raises E fuel tr e : (main E fuel tr).1 ≠ Raised e.
Proof.
  destruct (truthy (API_KEY E)) eqn:Hk.
  - rewrite main_with_key by done.
    by destruct (main_body E fuel (tr ++ [start_marker])) as [[[]|e'|] tr'].
  - by rewrite main_no_key.
Qed.

(** C8, as stated, fails on a run without API key: the only record of that
    run is the error line; neither marker is written. *)
Lemma main_no_key_no_markers :
  main no_key_env 5 [] = (Done tt, [EvLog ERROR MsgKeyMissing]) ∧
  (start_marker ∉ (main no_key_env 5 []).2) ∧
  (end_marker ∉ (main no_key_env 5 []).2) ∧
  ¬ ∃ mid, (main no_key_env 5 []).2 = [start_marker] ++ mid ++ [end_marker].
Proof.
  assert (Hrun : main no_key_env 5 [] = (Done tt, [EvLog ERROR MsgKeyMissing]))
    by reflexivity.
  rewrite Hrun. simpl. split_and!; [done| | |].
  - intros [[=]|[]%elem_of_nil]%elem_of_cons.
  - intros [[=]|[]%elem_of_nil]%elem_of_cons.
  - intros [mid Hmid]. simpl in Hmid. by injection Hmid.
Qed.

(** C8, amended.  A run with an API key writes the start marker before
    anything else; when the run ends, whether its body succeeded or raised,
    it ends normally and the end marker is the last thing it writes, and
    no marker is written in between.  (A run that does not end is one whose
    fetch is still being answered with further pages after [fuel]
    requests.)  A run without API key writes the error line and nothing
    else: no marker. *)
Theorem main_brackets_run_with_key (E : Env) (fuel : nat) (tr : Trace) :
  (truthy (API_KEY E) = false →
   main E fuel tr = (Done tt, tr ++ [EvLog ERROR MsgKeyMissing])) ∧
  (truthy (API_KEY E) = true →
   ∃ mid, Forall (λ ev, ¬ marker ev) mid ∧
     (main E fuel tr = (Done tt, tr ++ [start_marker] ++ mid ++ [end_marker]) ∨
      main E fuel tr = (OutOfFuel, tr ++ [start_marker] ++ mid) ∧
      ∃ evs gets, mid = evs ++ gets ∧ Forall is_get gets ∧
                  length gets = fuel)).
Proof.
  split; [apply main_no_key|]. intros Hk.
  rewrite main_with_key by done.
  destruct (run_phase_main_body E fuel (tr ++ [start_marker]))
    as (evs & Htr & Hnm & _).
  pose proof (exhausts_main_body E fuel (tr ++ [start_marker])) as Hex.
  destruct (main_body E fuel (tr ++ [start_marker])) as [[[]|e|] tr'];
    simpl in Htr; subst tr'.
  - exists evs. split; [done|]. left. by rewrite <- !(assoc_L (++)).
  - exists (evs ++ [EvLog ERROR (MsgRunFailed e)]). split.
    + apply Forall_app. split; [done|]. constructor; [|done].
      intros [[=]|[=]].
    + left. by rewrite <- !(assoc_L (++)).
  - exists evs. split; [done|]. right.
    split; [by rewrite <- !(assoc_L (++))|].
    destruct (Hex _ eq_refl) as (evs' & gets & Heq & Hg & Hlen).
    apply (inj (app _)) in Heq. by exists evs', gets.
Qed.

Lemma main_brackets_run_with_key_witness :
  (∃ mid, Forall (λ ev, ¬ marker ev) mid ∧
     (main festival_env 5 [] =
        (Done tt, [] ++ [start_marker] ++ mid ++ [end_marker]) ∨
      main festival_env 5 [] = (OutOfFuel, [] ++ [start_marker] ++ mid) ∧
      ∃ evs gets, mid = evs ++ gets ∧ Forall is_get gets ∧ length gets = 5)) ∧
  (∃ mid, Forall (λ ev, ¬ marker ev) mid ∧
     (main failing_env 5 [] =
        (Done tt, [] ++ [start_marker] ++ mid ++ [end_marker]) ∨
      main failing_env 5 [] = (OutOfFuel, [] ++ [start_marker] ++ mid) ∧
      ∃ evs gets, mid = evs ++ gets ∧ Forall is_get gets ∧ length gets = 5)) ∧
  main no_key_env 5 [] = (Done tt, [] ++ [EvLog ERROR MsgKeyMissing]).
Proof.
  split_and!.
  - exact (proj2 (main_brackets_run_with_key festival_env 5 []) eq_refl).
  - exact (proj2 (main_brackets_run_with_key failing_env 5 []) eq_refl).
  - exact (proj1 (main_brackets_run_with_key no_key_env 5 []) eq_refl).
Defined.

(** ** A refused request *)

Lemma cf_get_all_loop_fails E pages :
  ∀ fuel tr u params items status_code json,
    truthy u = true →
    fails_after E tr u params pages status_code json →
    length pages < fuel →
    ∃ u' params',
      cf_get_all_loop E fuel (Some u) params items tr =
        (Raised (HTTPError status_code),
         tr ++ page_events u params pages
            ++ [EvGet u' params' (Resp status_code json)]) ∧
      length (page_events u params pages) = length pages.
Proof.
  induction pages as [|p rest IH];
    intros fuel tr u params items st json Hu Hf Hlen;
    (destruct fuel as [|fuel]; [simpl in Hlen; lia|]);
    rewrite cf_get_all_loop_step by done.
  - destruct Hf as [Hr Hst]. exists u, params.
    unfold get_page, http_get, mbind, M_bind. by rewrite Hr, Hst.
  - destruct Hf as (Hr & Hst & Hf).
    erewrite bind_Done by (by apply get_page_ok).
    simpl. destruct (next_or_None (page_next p)) as [u1|] eqn:Hn; [|done].
    destruct (IH fuel (tr ++ [EvGet u params (page_response p)]) u1 None
                 (items ++ page_batch p) st json)
      as (u' & params' & Hrun & Hl);
      [by eapply next_or_None_truthy|done|simpl in Hlen; lia|].
    exists u', params'. rewrite Hrun, Hl.
    by rewrite <- !(assoc_L (++)).
Qed.

Lemma main_refused E fuel tr :
  truthy (API_KEY E) = true →
  ∃ evs, (main E fuel tr).2 = tr ++ evs ∧
    ∀ ev status_code,
      ev ∈ evs → refused_with status_code ev →
      (main E fuel tr).1 = Done tt ∧
      Forall (λ ev, ¬ artifact_event ev) evs ∧
      ∃ evs0, evs = evs0 ++ [ev; EvLog ERROR (MsgRunFailed (HTTPError status_code));
                             end_marker].
Proof.
  intros Hk. rewrite main_with_key by done.
  destruct (run_phase_main_body E fuel (tr ++ [start_marker]))
    as (evs & Htr & Hnm & Hcases).
  assert (Hstart : ∀ st, ¬ refused_with st start_marker) by (intros st []).
  assert (Hrefused : ∀ st ev, refused_with st ev → refused ev).
  { intros st [u p [e|st' json]| | | |]; simpl; tauto. }
  destruct (main_body E fuel (tr ++ [start_marker])) as [[[]|e|] tr'] eqn:Hb;
    simpl in Htr; subst tr'.
  - exists ([start_marker] ++ evs ++ [end_marker]).
    split; [by rewrite <- !(assoc_L (++))|].
    intros ev st Hin Hev. exfalso.
    destruct Hcases as [Hok|(? & ? & ? & _ & _ & _ & _ & ?)]; [|done].
    rewrite !elem_of_app, !list_elem_of_singleton in Hin.
    destruct Hin as [->|[Hin| ->]]; [by eapply Hstart| |done].
    rewrite Forall_forall in Hok. eapply Hok; eauto.
  - exists ([start_marker] ++ evs ++ [EvLog ERROR (MsgRunFailed e); end_marker]).
    split; [by rewrite <- !(assoc_L (++))|].
    intros ev st Hin Hev.
    assert (Hin' : ev ∈ evs).
    { rewrite !elem_of_app, list_elem_of_singleton, !elem_of_cons in Hin.
      destruct Hin as [->|[Hin|[->|[->|[]%elem_of_nil]]]];
        [by exfalso; eapply Hstart|done|done|done]. }
    destruct Hcases as [Hok|(evs0 & ev' & st' & -> & Hev' & Hok & Hna & [= ->])].
    { exfalso. rewrite Forall_forall in Hok. eapply Hok; eauto. }
    assert (ev = ev' ∧ st = st') as [-> ->].
    { apply elem_of_app in Hin' as [Hin'|Hin'%list_elem_of_singleton].
      - exfalso. rewrite Forall_forall in Hok. eapply Hok; eauto.
      - subst ev'. split; [done|].
        destruct ev as [u p [e'|s json]| | | |]; simpl in *; try done.
        destruct Hev, Hev'. congruence. }
    split_and!; [done| |].
    + apply Forall_app. split; [constructor; [intros []|done]|].
      apply Forall_app. split; [done|].
      constructor; [intros []|constructor; [intros []|done]].
    + exists ([start_marker] ++ evs0). by rewrite <- !(assoc_L (++)).
  - exists ([start_marker] ++ evs). split; [by rewrite <- !(assoc_L (++))|].
    intros ev st Hin Hev. exfalso.
    destruct Hcases as [Hok|(? & ? & ? & _ & _ & _ & _ & ?)]; [|done].
    rewrite !elem_of_app, !list_elem_of_singleton in Hin.
    destruct Hin as [->|Hin]; [by eapply Hstart|].
    rewrite Forall_forall in Hok. eapply Hok; eauto.
Qed.

(** C5, as stated, fails for a status that is no success and that
    [raise_for_status] does not refuse: a page answered with 304 whose
    body decodes is taken like any other.  The fetch returns its records,
    the entries are counted, and the run writes the workbook and uploads
    it; nothing is logged as a failure. *)
Lemma cf_get_all_takes_a_page_with_status_304 :
  success_status 304 = false ∧
  cf_get_all not_modified_env 1 "/entry" (entry_params CATEGORY_13_17) [] =
    (Done [EntryRecord "A" "submitted"],
     [EvGet "https://api.us.cr4ce.com/entry" (entry_params CATEGORY_13_17)
        (Resp 304 (Some {| data := Some [EntryRecord "A" "submitted"];
                           next_page_url := NextNull |}))]) ∧
  (main not_modified_env 1 []).1 = Done tt ∧
  EvExcel workbook_20250722
    [ {| No := 1; Region := "AMR"; Chapter_Name := "Brazil";
         Y13_Submitted := 1; Y13_In_Progress := 0;
         Y18_Submitted := 0; Y18_In_Progress := 0; Total := 1 |};
      {| No := 2; Region := "PRC"; Chapter_Name := "China";
         Y13_Submitted := 0; Y13_In_Progress := 0;
         Y18_Submitted := 1; Y18_In_Progress := 0; Total := 1 |} ]
    None ∈ (main not_modified_env 1 []).2 ∧
  EvPost "https://api.telegram.org/bottoken/sendDocument" "42"
    "award_force_stage1_20250722.xlsx" "award_force_stage1_20250722.xlsx"
    (PostResp 200 "ok") ∈ (main not_modified_env 1 []).2 ∧
  ¬ (∃ e, EvLog ERROR (MsgRunFailed e) ∈ (main not_modified_env 1 []).2).
Proof.
  split_and!.
  - reflexivity.
  - reflexivity.
  - reflexivity.
  - vm_compute. do 7 right. left.
  - vm_compute. do 10 right. left.
  - intros [e He]. vm_compute in He.
    repeat (apply elem_of_cons in He as [He|He]; [discriminate He|]).
    by apply elem_of_nil in He.
Qed.

(** C5, amended.  The statuses that [raise_for_status] refuses are those
    of 400 to 599.  A fetch that meets one of them raises the HTTP error
    of that status: it returns no records, not even those of the pages
    before, and the refused request is the last one it issues.  The error
    leaves chapter loading and aggregation as it is; in [main] it is
    caught: the run ends normally, the record of the failure and the end
    marker directly follow the refused request, and nothing of the run
    writes, opens or uploads a workbook.  A page with any other status,
    success or not, is taken when its body decodes: its records are kept
    and its next-page reference is followed. *)
Theorem refused_request_aborts_run :
  (∀ status_code,
      is_error_status status_code = true ↔
      400 ≤ status_code ∧ status_code < 600) ∧
  (∀ E fuel path params tr pages status_code json,
      fails_after E tr (BASE_URL +:+ path) params pages status_code json →
      length pages < fuel →
      ∃ u' params',
        cf_get_all E fuel path params tr =
          (Raised (HTTPError status_code),
           tr ++ page_events (BASE_URL +:+ path) params pages
              ++ [EvGet u' params' (Resp status_code json)]) ∧
        length (page_events (BASE_URL +:+ path) params pages) = length pages) ∧
  (∀ E fuel tr e tr',
      cf_get_all E fuel "/chapter" chapter_params tr = (Raised e, tr') →
      fetch_chapters E fuel tr = (Raised e, tr')) ∧
  (∀ E fuel chapters tr e tr',
      gather_entries E fuel CATEGORY_13_17 tr = (Raised e, tr') →
      build_counts E fuel chapters tr = (Raised e, tr')) ∧
  (∀ E fuel chapters tr es tr1 counts tr2 e tr',
      gather_entries E fuel CATEGORY_13_17 tr = (Done es, tr1) →
      count_entries K13_sub K13_prog es (init_counts chapters) tr1
        = (Done counts, tr2) →
      gather_entries E fuel CATEGORY_above18 tr2 = (Raised e, tr') →
      build_counts E fuel chapters tr = (Raised e, tr')) ∧
  (∀ E fuel tr evs ev status_code,
      truthy (API_KEY E) = true →
      (main E fuel tr).2 = tr ++ evs →
      ev ∈ evs → refused_with status_code ev →
      (main E fuel tr).1 = Done tt ∧
      Forall (λ ev, ¬ artifact_event ev) evs ∧
      ∃ evs0, evs = evs0 ++ [ev; EvLog ERROR (MsgRunFailed (HTTPError status_code));
                             end_marker]) ∧
  (∀ E fuel tr u params items status_code batch next,
      truthy u = true →
      requests_get E tr u params =
        Resp status_code
             (Some {| data := Some batch; next_page_url := next |}) →
      is_error_status status_code = false →
      cf_get_all_loop E (S fuel) (Some u) params items tr =
      cf_get_all_loop E fuel (next_or_None next) None (items ++ batch)
        (tr ++ [EvGet u params
                  (Resp status_code
                        (Some {| data := Some batch;
                                 next_page_url := next |}))])).
Proof.
  split_and!.
  - intros st. unfold is_error_status.
    rewrite andb_true_iff, Nat.leb_le, Nat.ltb_lt. done.
  - intros E fuel path params tr pages st json Hf Hlen.
    by apply cf_get_all_loop_fails; [apply truthy_BASE_URL|..].
  - intros E fuel tr e tr' H. unfold fetch_chapters.
    by apply bind_Raised.
  - intros E fuel chapters tr e tr' H. unfold build_counts.
    by apply bind_Raised.
  - intros E fuel chapters tr es tr1 counts tr2 e tr' H1 H2 H3.
    unfold build_counts.
    rewrite (bind_Done _ _ _ _ _ H1), (bind_Done _ _ _ _ _ H2).
    by apply bind_Raised.
  - intros E fuel tr evs ev st Hk Hevs Hin Hev.
    destruct (main_refused E fuel tr Hk) as (evs' & Hevs' & H).
    rewrite Hevs in Hevs'. apply (inj (app _)) in Hevs'. subst evs'.
    by apply H.
  - intros E fuel tr u params items st batch next Hu Hr Hst.
    rewrite cf_get_all_loop_step by done.
    by rewrite (bind_Done _ _ _ _ _
                  (get_page_ok E tr u params
                     {| page_status := st; page_batch := batch;
                        page_next := next |} Hr Hst)).
Qed.

Lemma refused_request_aborts_run_witness :
  (∃ u' params',
      cf_get_all failing_env 3 "/entry" (entry_params CATEGORY_13_17) [] =
        (Raised (HTTPError 500),
         [] ++ page_events (BASE_URL +:+ "/entry")
                 (entry_params CATEGORY_13_17) []
            ++ [EvGet u' params' (Resp 500 None)]) ∧
      length (page_events (BASE_URL +:+ "/entry")
                (entry_params CATEGORY_13_17) []) = 0) ∧
  (main failing_env 3 []).1 = Done tt ∧
  Forall (λ ev, ¬ artifact_event ev) (main failing_env 3 []).2 ∧
  cf_get_all_loop not_modified_env 1 (Some "https://api.us.cr4ce.com/entry")
    (entry_params CATEGORY_13_17) [] [] =
  cf_get_all_loop not_modified_env 0 (next_or_None NextNull) None
    ([] ++ [EntryRecord "A" "submitted"])
    ([] ++ [EvGet "https://api.us.cr4ce.com/entry"
              (entry_params CATEGORY_13_17)
              (Resp 304 (Some {| data := Some [EntryRecord "A" "submitted"];
                                 next_page_url := NextNull |}))]).
Proof.
  split; [|split_and!].
  - apply (proj1 (proj2 refused_request_aborts_run) failing_env 3 "/entry"
             (entry_params CATEGORY_13_17) [] [] 500 None).
    + split; reflexivity.
    + simpl. lia.
  - pose proof (proj1 (proj2 (proj2 (proj2 (proj2 (proj2
             refused_request_aborts_run))))) failing_env 3 []
             (main failing_env 3 []).2
             (EvGet (BASE_URL +:+ "/entry") (entry_params CATEGORY_13_17)
                    (Resp 500 None))
             500 eq_refl eq_refl) as H.
    destruct H as (Hdone & _ & _).
    + vm_compute. do 5 right. left.
    + split; reflexivity.
    + exact Hdone.
  - pose proof (proj1 (proj2 (proj2 (proj2 (proj2 (proj2
             refused_request_aborts_run))))) failing_env 3 []
             (main failing_env 3 []).2
             (EvGet (BASE_URL +:+ "/entry") (entry_params CATEGORY_13_17)
                    (Resp 500 None))
             500 eq_refl eq_refl) as H.
    destruct H as (_ & Hart & _).
    + vm_compute. do 5 right. left.
    + split; reflexivity.
    + exact Hart.
  - exact (proj2 (proj2 (proj2 (proj2 (proj2 (proj2
             refused_request_aborts_run))))) not_modified_env 0 []
             "https://api.us.cr4ce.com/entry" (entry_params CATEGORY_13_17)
             [] 304 [EntryRecord "A" "submitted"] NextNull
             eq_refl eq_refl eq_refl).
Defined.

(** ** Delivery *)

(** C7, as stated, fails when the upload transport raises instead of
    answering: the timeout leaves [send_to_telegram] as an exception. *)
Lemma send_to_telegram_raises_on_timeout :
  send_to_telegram upload_timeout_env workbook_20250722 [] =
    (Raised Timeout,
     [EvOpen workbook_20250722 None;
      EvPost "https://api.telegram.org/bottoken/sendDocument" "42"
             "award_force_stage1_20250722.xlsx"
             "award_force_stage1_20250722.xlsx" (PostFails Timeout)]) ∧
  ¬ ∃ tr', send_to_telegram upload_timeout_env workbook_20250722 [] =
             (Done tt, tr').
Proof.
  split; [reflexivity|]. intros [tr' H]. vm_compute in H. discriminate H.
Qed.

(** C7, amended.  Without bot token or without chat identifier
    [send_to_telegram] attempts no delivery (it neither opens the artifact
    nor posts), writes an error record of its own and returns.  With both,
    once the artifact is opened and the transport answers, it returns
    whatever the status of the answer: a record of success for an ok
    status, an error record with the text of the answer otherwise.  When
    opening the artifact or the transport raises, the exception leaves
    [send_to_telegram]; [main] itself never raises. *)
Theorem send_to_telegram_outcomes (E : Env) (file_path : Path) (tr : Trace) :
  (truthy (BOT_TOKEN E) && truthy (CHAT_ID E) = false →
   send_to_telegram E file_path tr =
     (Done tt, tr ++ [EvLog ERROR MsgTelegramMissing])) ∧
  (∀ text, MsgTelegramMissing ≠ MsgUploadFailed text) ∧
  (∀ status_code text,
      truthy (BOT_TOKEN E) && truthy (CHAT_ID E) = true →
      open_rb E tr file_path = None →
      requests_post E (tr ++ [EvOpen file_path None]) (sendDocument_url E)
        (CHAT_ID E) (name file_path) (name file_path)
        = PostResp status_code text →
      send_to_telegram E file_path tr =
        (Done tt,
         tr ++ [EvOpen file_path None;
                EvPost (sendDocument_url E) (CHAT_ID E) (name file_path)
                       (name file_path) (PostResp status_code text);
                if ok status_code
                then EvLog INFO (MsgSent (name file_path) (CHAT_ID E))
                else EvLog ERROR (MsgUploadFailed text)])) ∧
  (∀ e,
      truthy (BOT_TOKEN E) && truthy (CHAT_ID E) = true →
      open_rb E tr file_path = None →
      requests_post E (tr ++ [EvOpen file_path None]) (sendDocument_url E)
        (CHAT_ID E) (name file_path) (name file_path) = PostFails e →
      send_to_telegram E file_path tr =
        (Raised e,
         tr ++ [EvOpen file_path None;
                EvPost (sendDocument_url E) (CHAT_ID E) (name file_path)
                       (name file_path) (PostFails e)])) ∧
  (∀ e,
      truthy (BOT_TOKEN E) && truthy (CHAT_ID E) = true →
      open_rb E tr file_path = Some e →
      send_to_telegram E file_path tr =
        (Raised e, tr ++ [EvOpen file_path (Some e)])) ∧
  (∀ fuel e, (main E fuel tr).1 ≠ Raised e).
Proof.
  unfold send_to_telegram, sendDocument_url. split_and!.
  - intros ->. reflexivity.
  - done.
  - intros st text -> Hopen Hpost. simpl.
    unfold mbind, M_bind, open_file, http_post.
    rewrite Hopen, Hpost. unfold logging_info, logging_error, emit.
    destruct (ok st); by rewrite <- !(assoc_L (++)).
  - intros e -> Hopen Hpost. simpl.
    unfold mbind, M_bind, open_file, http_post.
    rewrite Hopen, Hpost. unfold raise. by rewrite <- !(assoc_L (++)).
  - intros e -> Hopen. simpl.
    unfold mbind, M_bind, open_file. by rewrite Hopen.
  - intros fuel e. apply main_never_raises.
Qed.

Lemma send_to_telegram_outcomes_witness :
  send_to_telegram no_chat_env workbook_20250722 [] =
    (Done tt, [] ++ [EvLog ERROR MsgTelegramMissing]) ∧
  send_to_telegram upload_rejected_env workbook_20250722 [] =
    (Done tt,
     [] ++ [EvOpen workbook_20250722 None;
            EvPost (sendDocument_url upload_rejected_env) "42"
                   (name workbook_20250722) (name workbook_20250722)
                   (PostResp 403 "Forbidden");
            EvLog ERROR (MsgUploadFailed "Forbidden")]) ∧
  send_to_telegram upload_timeout_env workbook_20250722 [] =
    (Raised Timeout,
     [] ++ [EvOpen workbook_20250722 None;
            EvPost (sendDocument_url upload_timeout_env) "42"
                   (name workbook_20250722) (name workbook_20250722)
                   (PostFails Timeout)]).
Proof.
  split_and!.
  - exact (proj1 (send_to_telegram_outcomes no_chat_env workbook_20250722 [])
             eq_refl).
  - exact (proj1 (proj2 (proj2
             (send_to_telegram_outcomes upload_rejected_env workbook_20250722 [])))
             403 "Forbidden" eq_refl eq_refl eq_refl).
  - exact (proj1 (proj2 (proj2 (proj2
             (send_to_telegram_outcomes upload_timeout_env workbook_20250722 []))))
             Timeout eq_refl eq_refl eq_refl).
Defined.

(** ** Counting *)

Lemma init_counts_lookup chapters slug :
  init_counts chapters !! slug =
    if bool_decide (slug ∈ chapters.*1) then Some zero_counts else None.
Proof.
  unfold init_counts.
  assert (H : ∀ (l : list string) (m : gmap string Counts),
             foldl (λ counts s, <[s := zero_counts]> counts) m l !! slug =
               if bool_decide (slug ∈ l) then Some zero_counts else m !! slug).
  { induction l as [|s l IH]; intros m; cbn [foldl].
    - by rewrite bool_decide_eq_false_2 by apply not_elem_of_nil.
    - rewrite IH. destruct (decide (slug = s)) as [->|Hne].
      + rewrite (bool_decide_eq_true_2 (s ∈ s :: l)) by left.
        rewrite lookup_insert_eq. by case_bool_decide.
      + rewrite lookup_insert_ne by done.
        case_bool_decide as Hin.
        * by rewrite bool_decide_eq_true_2 by (by right).
        * rewrite bool_decide_eq_false_2; [done|].
          by intros [?|?]%elem_of_cons. }
  rewrite H. by rewrite lookup_empty.
Qed.

(** [count_entry] is an in-place update of the chapter's counts; on an
    unknown chapter the update does nothing. *)
Lemma count_entry_alter sub prog ch st (counts : gmap string Counts) :
  count_entry sub prog ch st counts =
    alter (incr (if bool_decide (st = "submitted") then sub else prog))
          ch counts.
Proof.
  unfold count_entry. destruct (counts !! ch) as [c|] eqn:Hc; [done|].
  apply map_eq. intros i. rewrite lookup_alter.
  case_decide; [subst; by rewrite Hc|done].
Qed.

Lemma count_entry_known sub prog ch st (counts : gmap string Counts) c :
  counts !! ch = Some c →
  count_entry sub prog ch st counts =
    <[ch := incr (if bool_decide (st = "submitted") then sub else prog) c]>
      counts.
Proof.
  intros Hc. unfold count_entry. rewrite Hc.
  apply map_eq. intros i. rewrite lookup_alter, lookup_insert.
  case_decide; [subst; by rewrite Hc|done].
Qed.

Lemma count_entry_unknown sub prog ch st (counts : gmap string Counts) :
  counts !! ch = None → count_entry sub prog ch st counts = counts.
Proof. intros Hc. unfold count_entry. by rewrite Hc. Qed.

Lemma get_count_incr k k' c :
  get_count k' (incr k c) =
    get_count k' c + (if bool_decide (k' = k) then 1 else 0).
Proof. destruct k, k'; simpl; lia. Qed.



Lemma count_pass_cons sub prog e es counts :
  count_pass sub prog (e :: es) counts =
    count_pass sub prog es (count_entry sub prog e.1 e.2 counts).
Proof. done. Qed.




(** A pass of the program over records: it raises at the first record
    that is not an entry, and is [count_pass] when there is none. *)
Lemma count_entries_cases sub prog recs :
  ∀ counts tr,
    count_entries sub prog recs counts tr =
      if forallb is_entry recs
      then (Done (count_pass sub prog (fields_of <$> recs) counts), tr)
      else (Raised (KeyError "chapter"), tr).
Proof.
  induction recs as [|[slug nm|ch st] rest IH]; intros counts tr;
    [done|done|].
  simpl. unfold mbind, M_bind. simpl. by rewrite IH.
Qed.

Lemma count_entries_entries sub prog es counts tr :
  count_entries sub prog (entry_record <$> es) counts tr =
    (Done (count_pass sub prog es counts), tr).
Proof.
  rewrite count_entries_cases.
  assert (forallb is_entry (entry_record <$> es) = true) as ->.
  { by induction es. }
  do 3 f_equal. rewrite <- list_fmap_compose.
  rewrite <- (list_fmap_id es) at 2. apply list_fmap_ext. by intros ? [??] ?.
Qed.


Lemma tally_cons slug submitted e es :
  tally slug submitted (e :: es) =
    (if bool_decide (e.1 = slug ∧ bool_decide (e.2 = "submitted") = submitted)
     then 1 else 0) + tally slug submitted es.
Proof.
  unfold tally. rewrite filter_cons. case_decide as H.
  - by rewrite bool_decide_eq_true_2.
  - by rewrite bool_decide_eq_false_2.
Qed.

Lemma add_count_0 k c : add_count k 0 c = c.
Proof. destruct c, k; simpl; f_equal; lia. Qed.

Lemma add_count_S k n c : add_count k (1 + n) c = add_count k n (incr k c).
Proof. destruct c, k; simpl; f_equal; lia. Qed.

Lemma add_count_incr k k' n c :
  add_count k n (incr k' c) = incr k' (add_count k n c).
Proof. destruct c, k, k'; simpl; f_equal; lia. Qed.

Lemma count_pass_lookup sub prog es :
  ∀ (counts : gmap string Counts) slug,
    count_pass sub prog es counts !! slug =
      (λ c, add_count sub (tally slug true es)
              (add_count prog (tally slug false es) c)) <$> counts !! slug.
Proof.
  induction es as [|[ch st] es IH]; intros counts slug.
  - change (count_pass sub prog [] counts) with counts.
    change (tally slug true []) with 0. change (tally slug false []) with 0.
    destruct (counts !! slug) as [c|]; simpl; [|done].
    by rewrite !add_count_0.
  - rewrite count_pass_cons, IH, count_entry_alter, lookup_alter, !tally_cons.
    cbn [fst snd]. case_decide as Hch.
    + subst ch. destruct (counts !! slug) as [c|]; simpl; [|done]. f_equal.
      destruct (bool_decide (st = "submitted")) eqn:Hst.
      * rewrite (bool_decide_eq_true_2 (slug = slug ∧ true = true)) by done.
        rewrite (bool_decide_eq_false_2 (slug = slug ∧ true = false))
          by (by intros [_ ?]).
        by rewrite add_count_S, add_count_incr.
      * rewrite (bool_decide_eq_false_2 (slug = slug ∧ false = true))
          by (by intros [_ ?]).
        rewrite (bool_decide_eq_true_2 (slug = slug ∧ false = false)) by done.
        by rewrite add_count_S.
    + rewrite !bool_decide_eq_false_2 by (by intros [? _]). done.
Qed.

Lemma build_counts_run E fuel chapters tr recs13 tr1 recs18 tr2 :
  gather_entries E fuel CATEGORY_13_17 tr = (Done recs13, tr1) →
  gather_entries E fuel CATEGORY_above18 tr1 = (Done recs18, tr2) →
  build_counts E fuel chapters tr =
    if forallb is_entry recs13 then
      if forallb is_entry recs18 then
        (Done (count_pass K18_sub K18_prog (fields_of <$> recs18)
                 (count_pass K13_sub K13_prog (fields_of <$> recs13)
                    (init_counts chapters))), tr2)
      else (Raised (KeyError "chapter"), tr2)
    else (Raised (KeyError "chapter"), tr1).
Proof.
  intros H13 H18. unfold build_counts.
  rewrite (bind_Done _ _ _ _ _ H13).
  unfold mbind at 1, M_bind at 1. rewrite count_entries_cases.
  destruct (forallb is_entry recs13); [|done].
  rewrite (bind_Done _ _ _ _ _ H18). by rewrite count_entries_cases.
Qed.

(** C1. The aggregator starts from four zero counters for every slug of
    the chapters mapping and for no other slug.  An entry of a known
    chapter replaces that chapter's counts by the same counts with exactly
    one counter one higher: of the pair of the pass, the "submitted" one
    when the status is the string "submitted", the "in progress" one
    otherwise.  An entry of an unknown chapter leaves the mapping as it is.
    Whatever the two fetches return, the aggregation returns, and each
    counter of each chapter is the number of fetched entries of that
    chapter, bracket and status class. *)
Theorem build_counts_spec :
  (∀ chapters slug,
      init_counts chapters !! slug =
        if bool_decide (slug ∈ chapters.*1) then Some zero_counts else None) ∧
  (∀ sub prog ch st (counts : gmap string Counts) c,
      counts !! ch = Some c →
      count_entry sub prog ch st counts =
        <[ch := incr (if bool_decide (st = "submitted") then sub else prog) c]>
          counts) ∧
  (∀ k k' c,
      get_count k' (incr k c) =
        get_count k' c + (if bool_decide (k' = k) then 1 else 0)) ∧
  (∀ sub prog ch st (counts : gmap string Counts),
      counts !! ch = None → count_entry sub prog ch st counts = counts) ∧
  (∀ E fuel chapters tr es13 tr1 es18 tr2,
      gather_entries E fuel CATEGORY_13_17 tr
        = (Done (entry_record <$> es13), tr1) →
      gather_entries E fuel CATEGORY_above18 tr1
        = (Done (entry_record <$> es18), tr2) →
      ∃ counts,
        build_counts E fuel chapters tr = (Done counts, tr2) ∧
        ∀ slug,
          counts !! slug =
            if bool_decide (slug ∈ chapters.*1)
            then Some {| c13_sub := tally slug true es13;
                         c13_prog := tally slug false es13;
                         c18_sub := tally slug true es18;
                         c18_prog := tally slug false es18 |}
            else None).
Proof.
  split_and!.
  - apply init_counts_lookup.
  - intros. by apply count_entry_known.
  - apply get_count_incr.
  - intros. by apply count_entry_unknown.
  - intros E fuel chapters tr es13 tr1 es18 tr2 H13 H18.
    exists (count_pass K18_sub K18_prog es18
              (count_pass K13_sub K13_prog es13 (init_counts chapters))).
    split.
    + unfold build_counts.
      rewrite (bind_Done _ _ _ _ _ H13).
      unfold mbind at 1, M_bind at 1. rewrite count_entries_entries.
      rewrite (bind_Done _ _ _ _ _ H18). by rewrite count_entries_entries.
    + intros slug. rewrite !count_pass_lookup, init_counts_lookup.
      by case_bool_decide.
Qed.

Lemma build_counts_spec_witness :
  ∃ counts,
    build_counts festival_env 1
      [("A", {| meta_name := "Brazil"; meta_region := "AMR" |});
       ("B", {| meta_name := "China"; meta_region := "PRC" |})] [] =
      (Done counts,
       (gather_entries festival_env 1 CATEGORY_above18
          (gather_entries festival_env 1 CATEGORY_13_17 []).2).2) ∧
    counts !! "A" = Some {| c13_sub := 1; c13_prog := 1;
                            c18_sub := 0; c18_prog := 0 |} ∧
    counts !! "B" = Some {| c13_sub := 0; c13_prog := 0;
                            c18_sub := 1; c18_prog := 0 |} ∧
    counts !! "C" = None.
Proof.
  destruct (proj2 (proj2 (proj2 (proj2 build_counts_spec))) festival_env 1
              [("A", {| meta_name := "Brazil"; meta_region := "AMR" |});
               ("B", {| meta_name := "China"; meta_region := "PRC" |})] []
              [("A", "submitted"); ("A", "pending"); ("C", "submitted")]
              (gather_entries festival_env 1 CATEGORY_13_17 []).2
              [("B", "submitted")]
              (gather_entries festival_env 1 CATEGORY_above18
                 (gather_entries festival_env 1 CATEGORY_13_17 []).2).2
              eq_refl eq_refl) as (counts & Hrun & Hcounts).
  exists counts. split; [exact Hrun|].
  split; [exact (Hcounts "A")|]. split; [exact (Hcounts "B")|].
  exact (Hcounts "C").
Defined.




(** ** The order of strings and of sort keys *)

Lemma ascii_compare_refl (a : ascii) : Ascii.compare a a = Eq.
Proof. apply N.compare_refl. Qed.

Lemma ascii_compare_Lt_trans (a b c : ascii) :
  Ascii.compare a b = Lt → Ascii.compare b c = Lt → Ascii.compare a c = Lt.
Proof.
  unfold Ascii.compare. rewrite !N.compare_lt_iff. apply N.lt_trans.
Qed.

Lemma string_compare_refl (s : string) : String.compare s s = Eq.
Proof. induction s as [|a s IH]; simpl; [done|]. by rewrite ascii_compare_refl. Qed.

Lemma string_compare_Lt_trans (s1 : string) :
  ∀ s2 s3, String.compare s1 s2 = Lt → String.compare s2 s3 = Lt →
           String.compare s1 s3 = Lt.
Proof.
  induction s1 as [|a s1 IH]; intros [|b s2] [|c s3]; simpl; try done.
  destruct (Ascii.compare a b) eqn:Hab; [|clear IH|done];
    (destruct (Ascii.compare b c) eqn:Hbc; [| |done]).
  - apply Ascii.compare_eq_iff in Hab, Hbc. subst.
    rewrite ascii_compare_refl. apply IH.
  - apply Ascii.compare_eq_iff in Hab. subst. by rewrite Hbc.
  - apply Ascii.compare_eq_iff in Hbc. subst. by rewrite Hab.
  - by rewrite (ascii_compare_Lt_trans _ _ _ Hab Hbc).
Qed.

Lemma string_ltb_false (s1 s2 : string) :
  String.ltb s1 s2 = false ↔ String.compare s2 s1 ≠ Gt.
Proof.
  unfold String.ltb. rewrite (String.compare_antisym s1 s2).
  destruct (String.compare s2 s1); simpl; split; done.
Qed.

(** [a <= b] on keys: the first components are in order, or they are
    equal and the second components are not out of order. *)
Lemma tuple_le_spec (a b : string * string) :
  tuple_le a b ↔
  String.compare a.1 b.1 = Lt ∨
  (a.1 = b.1 ∧ String.compare a.2 b.2 ≠ Gt).
Proof.
  unfold tuple_le, tuple_lt.
  destruct (String.eqb b.1 a.1) eqn:He.
  - apply String.eqb_eq in He. rewrite string_ltb_false, He. split.
    + intros H. by right.
    + intros [H|[_ H]]; [|done]. by rewrite string_compare_refl in H.
  - rewrite string_ltb_false. split.
    + intros H. left. destruct (String.compare a.1 b.1) eqn:Hc; try done.
      apply String.compare_eq_iff in Hc. rewrite Hc in He.
      by rewrite String.eqb_refl in He.
    + intros [H|[H _]]; [by rewrite H|].
      rewrite H in He. by rewrite String.eqb_refl in He.
Qed.

Lemma string_le_trans (s1 s2 s3 : string) :
  String.compare s1 s2 ≠ Gt → String.compare s2 s3 ≠ Gt →
  String.compare s1 s3 ≠ Gt.
Proof.
  intros H12 H23.
  destruct (String.compare s1 s2) eqn:H1; [| |done].
  { apply String.compare_eq_iff in H1. by subst. }
  destruct (String.compare s2 s3) eqn:H2; [| |done].
  { apply String.compare_eq_iff in H2. subst. by rewrite H1. }
  by rewrite (string_compare_Lt_trans _ _ _ H1 H2).
Qed.

Lemma tuple_le_trans (a b c : string * string) :
  tuple_le a b → tuple_le b c → tuple_le a c.
Proof.
  rewrite !tuple_le_spec.
  intros [Hab|[Hab Hab2]] [Hbc|[Hbc Hbc2]].
  - left. by eapply string_compare_Lt_trans.
  - left. by rewrite <- Hbc.
  - left. by rewrite Hab.
  - right. split; [congruence|]. by eapply string_le_trans.
Qed.

Lemma tuple_lt_le (a b : string * string) : tuple_lt a b = true → tuple_le a b.
Proof.
  unfold tuple_le, tuple_lt. rewrite (String.eqb_sym b.1 a.1).
  destruct (String.eqb a.1 b.1); unfold String.ltb.
  - rewrite (String.compare_antisym a.2 b.2).
    by destruct (String.compare b.2 a.2).
  - rewrite (String.compare_antisym a.1 b.1).
    by destruct (String.compare b.1 a.1).
Qed.

Lemma tuple_le_refl (a : string * string) : tuple_le a a.
Proof.
  apply tuple_le_spec. right. split; [done|]. by rewrite string_compare_refl.
Qed.

#[local] Instance tuple_le_Transitive : Transitive tuple_le.
Proof. intros a b c. apply tuple_le_trans. Qed.

(** ** Sorting *)

Lemma insert_sorted_Permutation {A} (key : A → string * string) x l :
  insert_sorted key x l ≡ₚ x :: l.
Proof.
  induction l as [|y l IH]; simpl; [done|].
  destruct (tuple_lt (key y) (key x)); [|done].
  rewrite IH. apply perm_swap.
Qed.

Lemma sorted_Permutation {A} (key : A → string * string) l :
  sorted key l ≡ₚ l.
Proof.
  induction l as [|x l IH]; simpl; [done|].
  unfold sorted in *. simpl. by rewrite insert_sorted_Permutation, IH.
Qed.

Lemma insert_sorted_keys_Sorted {A} (key : A → string * string) x l :
  Sorted tuple_le (key <$> l) → Sorted tuple_le (key <$> insert_sorted key x l).
Proof.
  induction l as [|y l IH]; simpl.
  { intros _. by repeat constructor. }
  intros Hs. apply Sorted_inv in Hs as [Hs Hhd].
  destruct (tuple_lt (key y) (key x)) eqn:Hlt; simpl.
  - constructor; [by apply IH|].
    destruct l as [|z l]; simpl.
    + constructor. by apply tuple_lt_le.
    + apply HdRel_inv in Hhd.
      destruct (tuple_lt (key z) (key x)); simpl; constructor;
        [done|by apply tuple_lt_le].
  - constructor; [by constructor|]. by constructor.
Qed.

Lemma sorted_keys_StronglySorted {A} (key : A → string * string) l :
  StronglySorted tuple_le (key <$> sorted key l).
Proof.
  apply Sorted_StronglySorted; [apply tuple_le_Transitive|].
  induction l as [|x l IH]; [constructor|].
  unfold sorted in *. simpl. by apply insert_sorted_keys_Sorted.
Qed.

Lemma StronglySorted_fmap {A B} (R : relation A) (S : relation B)
    (f : A → B) (l : list A) :
  (∀ a b, a ∈ l → b ∈ l → R a b → S (f a) (f b)) →
  StronglySorted R l → StronglySorted S (f <$> l).
Proof.
  induction l as [|x l IH]; intros HRS Hs; simpl; [constructor|].
  apply StronglySorted_inv in Hs as [Hs Hall].
  constructor.
  - apply IH; [|done]. intros a b Ha Hb. apply HRS; by right.
  - rewrite Forall_fmap. rewrite Forall_forall in Hall |- *.
    intros b Hb. simpl. apply HRS; [left|by right|by apply Hall].
Qed.

(** The sort is stable: chapters with the same key keep the order they have
    in the mapping.  With the two lemmas above this determines the sorted
    list, whatever the algorithm. *)
Lemma insert_sorted_stable {A} (key : A → string * string) k x l :
  filter (λ y, key y = k) (insert_sorted key x l) =
  filter (λ y, key y = k) (x :: l).
Proof.
  induction l as [|y l IH]; simpl; [done|].
  destruct (tuple_lt (key y) (key x)) eqn:Hlt; [|done].
  rewrite (filter_cons _ y), IH, !(filter_cons _ x), (filter_cons _ y).
  destruct (decide (key y = k)) as [Hy|Hy], (decide (key x = k)) as [Hx|Hx];
    try done.
  rewrite <- Hx in Hy. rewrite Hy in Hlt.
  by rewrite (tuple_le_refl (key x)) in Hlt.
Qed.

Lemma sorted_stable {A} (key : A → string * string) k l :
  filter (λ y, key y = k) (sorted key l) = filter (λ y, key y = k) l.
Proof.
  induction l as [|x l IH]; [done|].
  unfold sorted in *. simpl.
  by rewrite insert_sorted_stable, !(filter_cons _ x), IH.
Qed.

(** ** The report composer *)

Lemma compose_rows_Done items counts :
  ∀ i tr rows tr',
    compose_rows i items counts tr = (Done rows, tr') →
    tr' = tr ∧
    Forall2 (row_of counts) items rows ∧
    No <$> rows = seq i (length items) ∧
    Forall (λ r, Total r = Y13_Submitted r + Y13_In_Progress r
                           + Y18_Submitted r + Y18_In_Progress r) rows.
Proof.
  induction items as [|[slug meta] rest IH]; intros i tr rows tr'; simpl.
  { intros [= <- <-]. by split_and!. }
  destruct (counts !! slug) as [c|] eqn:Hc; [|done].
  unfold mbind, M_bind.
  destruct (compose_rows (S i) rest counts tr) as [[rows'|e|] tr1] eqn:Hrest;
    [|done|done].
  intros [= <- <-].
  apply IH in Hrest as (-> & Hrows & Hno & Htot).
  split_and!; [done| |simpl; by f_equal|by constructor].
  constructor; [|done]. unfold row_of. simpl. by destruct c.
Qed.

Lemma compose_rows_covered items counts :
  (∀ kv, kv ∈ items → is_Some (counts !! kv.1)) →
  ∀ i tr, ∃ rows, compose_rows i items counts tr = (Done rows, tr).
Proof.
  induction items as [|[slug meta] rest IH]; intros Hcov i tr; simpl.
  { by exists []. }
  destruct (Hcov (slug, meta)) as [c Hc]; [left|]. simpl in Hc. rewrite Hc.
  destruct (IH (λ kv Hin, Hcov kv (list_elem_of_further _ _ _ Hin)) (S i) tr)
    as [rows Hrows].
  unfold mbind, M_bind. rewrite Hrows. by eexists.
Qed.

Lemma row_of_key E counts items rows :
  Forall2 (row_of counts) items rows →
  row_key E <$> rows = sort_key E <$> items.
Proof.
  induction 1 as [|kv r items rows (Hr & Hn & _) _ IH]; simpl; [done|].
  f_equal; [|done]. unfold row_key, sort_key. by rewrite Hr, Hn.
Qed.

(** Sorting by keys that agree on the elements of the list. *)
Lemma insert_sorted_ext {A} (key1 key2 : A → string * string) x l :
  key1 x = key2 x → Forall (λ y, key1 y = key2 y) l →
  insert_sorted key1 x l = insert_sorted key2 x l.
Proof.
  intros Hx. induction 1 as [|y l Hy _ IH]; simpl; [done|].
  by rewrite Hx, Hy, IH.
Qed.

Lemma sorted_ext {A} (key1 key2 : A → string * string) l :
  Forall (λ y, key1 y = key2 y) l → sorted key1 l = sorted key2 l.
Proof.
  induction 1 as [|x l Hx Hl IH]; [done|].
  unfold sorted in *. simpl. rewrite IH.
  apply insert_sorted_ext; [done|].
  change (foldr (insert_sorted key2) [] l) with (sorted key2 l).
  by rewrite (sorted_Permutation key2 l).
Qed.

(** C3. When every chapter has its counts, the composer returns one row
    per chapter.  The keys (region, lowercase form of the chapter name) of
    the rows ascend; the rows are numbered 1, 2, ..., N in that order; the
    total of a row is the sum of its four counters; the rows are those of
    the chapters, each with the name, the region and the counts of its
    chapter.  With [str.lower] as it is on ASCII strings, the chapters
    Zeta (AMR), Alpha (AMR), Beta (PRC) give the rows Alpha, Zeta, Beta,
    numbered 1, 2, 3, and the chapters Zeta, alpha, Beta of one region
    give alpha, Beta, Zeta, where the names themselves compare as
    Beta, Zeta, alpha. *)
Theorem compose_sorted_and_numbered (E : Env) :
  (∀ chapters (counts : gmap string Counts) tr,
      (∀ slug meta, (slug, meta) ∈ chapters → is_Some (counts !! slug)) →
      ∃ rows,
        compose E chapters counts tr = (Done rows, tr) ∧
        StronglySorted tuple_le (row_key E <$> rows) ∧
        No <$> rows = seq 1 (length chapters) ∧
        Forall (λ r, Total r = Y13_Submitted r + Y13_In_Progress r
                               + Y18_Submitted r + Y18_In_Progress r) rows ∧
        ∃ order, order ≡ₚ chapters ∧ Forall2 (row_of counts) order rows) ∧
  (∀ a b, tuple_le a b ↔
          String.compare a.1 b.1 = Lt ∨
          (a.1 = b.1 ∧ String.compare a.2 b.2 ≠ Gt)) ∧
  (lower_on_ascii E →
   (∀ tr, ∃ rows,
       compose E zeta_alpha_beta (init_counts zeta_alpha_beta) tr
         = (Done rows, tr) ∧
       (λ r, (No r, Chapter_Name r, Region r)) <$> rows =
         [(1, "Alpha", "AMR"); (2, "Zeta", "AMR"); (3, "Beta", "PRC")]) ∧
   (∀ tr, ∃ rows,
       compose E mixed_case_chapters (init_counts mixed_case_chapters) tr
         = (Done rows, tr) ∧
       (λ r, (No r, Chapter_Name r, Region r)) <$> rows =
         [(1, "alpha", "AMR"); (2, "Beta", "AMR"); (3, "Zeta", "AMR")]) ∧
   String.ltb "Beta" "Zeta" = true ∧ String.ltb "Zeta" "alpha" = true).
Proof.
  split_and!.
  - intros chapters counts tr Hcov. unfold compose.
    destruct (compose_rows_covered (sorted (sort_key E) chapters) counts)
      with (i := 1) (tr := tr) as [rows Hrows].
    { intros [slug meta] Hin. apply (Hcov slug meta).
      by rewrite <- (sorted_Permutation (sort_key E) chapters). }
    exists rows. split; [done|].
    apply compose_rows_Done in Hrows as (_ & Hrel & Hno & Htot).
    split_and!.
    + rewrite (row_of_key _ _ _ _ Hrel). apply sorted_keys_StronglySorted.
    + by rewrite Hno, (sorted_Permutation (sort_key E) chapters).
    + done.
    + exists (sorted (sort_key E) chapters). split; [|done].
      apply sorted_Permutation.
  - apply tuple_le_spec.
  - intros Hlow.
    assert (Hkey : ∀ l : list (string * Meta),
               Forall (λ kv, is_ascii (meta_name kv.2) = true) l →
               sorted (sort_key E) l =
               sorted (λ kv, (meta_region kv.2, ascii_lower (meta_name kv.2)))
                      l).
    { intros l Hl. apply sorted_ext.
      eapply Forall_impl; [exact Hl|].
      intros kv Ha. unfold sort_key. by rewrite (Hlow _ Ha). }
    split_and!.
    + intros tr. unfold compose.
      rewrite (Hkey zeta_alpha_beta) by (by repeat constructor).
      eexists. split; reflexivity.
    + intros tr. unfold compose.
      rewrite (Hkey mixed_case_chapters) by (by repeat constructor).
      eexists. split; reflexivity.
    + reflexivity.
    + reflexivity.
Qed.

Lemma compose_sorted_and_numbered_witness :
  (∃ rows,
      compose festival_env zeta_alpha_beta (init_counts zeta_alpha_beta) []
        = (Done rows, []) ∧
      StronglySorted tuple_le (row_key festival_env <$> rows) ∧
      No <$> rows = seq 1 (length zeta_alpha_beta)) ∧
  (∃ rows,
      compose festival_env sao_chapters (init_counts sao_chapters) []
        = (Done rows, []) ∧
      StronglySorted tuple_le (row_key festival_env <$> rows) ∧
      (λ r, (No r, Chapter_Name r)) <$> rows
        = [(1, "São Paulo"); (2, "SÃO TOMÉ")]) ∧
  lower_on_ascii festival_env ∧
  (∃ rows,
      compose festival_env mixed_case_chapters
        (init_counts mixed_case_chapters) [] = (Done rows, []) ∧
      (λ r, (No r, Chapter_Name r, Region r)) <$> rows =
        [(1, "alpha", "AMR"); (2, "Beta", "AMR"); (3, "Zeta", "AMR")]).
Proof.
  split_and!.
  - destruct (proj1 (compose_sorted_and_numbered festival_env) zeta_alpha_beta
                (init_counts zeta_alpha_beta) [])
      as (rows & H1 & H2 & H3 & _).
    + intros slug meta Hin. rewrite init_counts_lookup.
      rewrite bool_decide_eq_true_2; [by eexists|].
      apply list_elem_of_fmap. by exists (slug, meta).
    + by exists rows.
  - destruct (proj1 (compose_sorted_and_numbered festival_env) sao_chapters
                (init_counts sao_chapters) [])
      as (rows & H1 & H2 & _).
    + intros slug meta Hin. rewrite init_counts_lookup.
      rewrite bool_decide_eq_true_2; [by eexists|].
      apply list_elem_of_fmap. by exists (slug, meta).
    + exists rows. split; [exact H1|]. split; [exact H2|].
      vm_compute in H1. injection H1 as <-. reflexivity.
  - apply table_env_lower_on_ascii.
  - exact (proj1 (proj2 (proj2 (proj2 (compose_sorted_and_numbered festival_env))
                    (table_env_lower_on_ascii _ _ _ _ _))) []).
Defined.

(** ** The order of the regions *)

Lemma StronglySorted_fmap_inv {A B} (S : relation B) (f : A → B) (l : list A) :
  StronglySorted S (f <$> l) → StronglySorted (λ a b, S (f a) (f b)) l.
Proof.
  induction l as [|x l IH]; simpl; intros Hs; [constructor|].
  apply StronglySorted_inv in Hs as [Hs Hall].
  constructor; [by apply IH|]. by rewrite Forall_fmap in Hall.
Qed.

Lemma REGION_TAGS_ascending :
  StronglySorted (λ a b, String.ltb a b = true) REGION_TAGS.
Proof. unfold REGION_TAGS. repeat constructor. Qed.

Lemma region_rank_mono a b :
  a ∈ REGION_TAGS → b ∈ REGION_TAGS →
  String.ltb b a = false → region_rank a ≤ region_rank b.
Proof.
  unfold REGION_TAGS. rewrite !elem_of_cons, !elem_of_nil.
  intros [->|[->|[->|[->|[->|[]]]]]] [->|[->|[->|[->|[->|[]]]]]] H;
    first [ by vm_compute in H
          | apply Nat.leb_le; vm_compute; reflexivity ].
Qed.

Lemma tuple_le_fst (a b : string * string) :
  tuple_le a b → String.ltb b.1 a.1 = false.
Proof.
  rewrite tuple_le_spec, string_ltb_false.
  intros [H|[-> _]]; [by rewrite H|by rewrite string_compare_refl].
Qed.

Lemma dict_set_Forall {V} (P : string * V → Prop) k v d :
  P (k, v) → Forall P d → Forall P (dict_set k v d).
Proof.
  intros Hkv. induction 1 as [|[k' v'] d Hx Hd IH]; simpl.
  { by repeat constructor. }
  case_bool_decide; by constructor.
Qed.

Lemma fetch_chapters_loop_regions E recs :
  ∀ chapters tr out tr',
    Forall (λ kv, meta_region kv.2 = chapter_to_region E (meta_name kv.2))
           chapters →
    fetch_chapters_loop E recs chapters tr = (Done out, tr') →
    Forall (λ kv, meta_region kv.2 = chapter_to_region E (meta_name kv.2)) out.
Proof.
  induction recs as [|[slug nm|ch st] rest IH]; intros chapters tr out tr' HP;
    simpl.
  - by intros [= <- <-].
  - unfold mbind, M_bind. simpl. apply IH. by apply dict_set_Forall.
  - done.
Qed.

(** C9. The region tags compare, as strings, in the order AMR, APJ, EMEA,
    Other, PRC.  For chapters whose region is the classifier's answer on
    their name (as the chapter loader stores them), the regions of the rows
    are among those five tags and never step back in that order: the rows
    of AMR come first, then those of APJ, EMEA, Other and PRC. *)
Theorem rows_grouped_by_region_tag (E : Env) :
  StronglySorted (λ a b, String.ltb a b = true) REGION_TAGS ∧
  region_rank <$> REGION_TAGS = [0; 1; 2; 3; 4] ∧
  (∀ chapters (counts : gmap string Counts) tr rows tr',
      Forall (λ kv, meta_region kv.2 = chapter_to_region E (meta_name kv.2))
             chapters →
      compose E chapters counts tr = (Done rows, tr') →
      Forall (λ r, Region r ∈ REGION_TAGS) rows ∧
      StronglySorted le (region_rank <$> (Region <$> rows))) ∧
  (∀ recs tr chapters tr',
      fetch_chapters_loop E recs [] tr = (Done chapters, tr') →
      Forall (λ kv, meta_region kv.2 = chapter_to_region E (meta_name kv.2))
             chapters).
Proof.
  split_and!.
  - apply REGION_TAGS_ascending.
  - reflexivity.
  - intros chapters counts tr rows tr' Hreg Hrows. unfold compose in Hrows.
    apply compose_rows_Done in Hrows as (_ & Hrel & _ & _).
    assert (Htags : Forall (λ r, Region r ∈ REGION_TAGS) rows).
    { assert (Hs : Forall (λ kv, meta_region kv.2
                                 = chapter_to_region E (meta_name kv.2))
                          (sorted (sort_key E) chapters)).
      { by rewrite (sorted_Permutation (sort_key E) chapters). }
      clear Hreg. induction Hrel as [|kv r items rows' (Hr & _) _ IH];
        [done|].
      apply Forall_cons in Hs as [Hkv Hs]. constructor; [|by apply IH].
      rewrite Hr, Hkv. apply chapter_to_region_tag. }
    split; [done|].
    rewrite <- list_fmap_compose.
    eapply (StronglySorted_fmap (λ r1 r2, tuple_le (row_key E r1) (row_key E r2))).
    + intros r1 r2 H1 H2 Hle. simpl.
      rewrite Forall_forall in Htags.
      apply region_rank_mono; [by apply Htags..|].
      by apply tuple_le_fst in Hle.
    + apply StronglySorted_fmap_inv.
      rewrite (row_of_key _ _ _ _ Hrel). apply sorted_keys_StronglySorted.
  - intros recs tr chapters tr'. by apply fetch_chapters_loop_regions.
Qed.

Lemma rows_grouped_by_region_tag_witness :
  Forall (λ r, Region r ∈ REGION_TAGS) five_regions_rows ∧
  StronglySorted le (region_rank <$> (Region <$> five_regions_rows)) ∧
  Region <$> five_regions_rows = ["AMR"; "APJ"; "EMEA"; "Other"; "PRC"].
Proof.
  destruct (proj1 (proj2 (proj2 (rows_grouped_by_region_tag festival_env)))
              five_regions
              (init_counts five_regions) [] five_regions_rows [])
    as [H1 H2].
  - unfold five_regions. repeat constructor.
  - reflexivity.
  - split; [exact H1|]. split; [exact H2|reflexivity].
Defined.

(** * Further properties *)

(** ** The chapters mapping *)

Lemma dict_get_dict_set {V} k k' (v : V) d :
  dict_get k' (dict_set k v d) =
    if bool_decide (k' = k) then Some v else dict_get k' d.
Proof.
  induction d as [|[k0 v0] d IH]; cbn [dict_set dict_get]; [done|].
  destruct (decide (k = k0)) as [<-|Hk].
  - rewrite (bool_decide_eq_true_2 (k = k)) by done. cbn [dict_get].
    by case_bool_decide.
  - rewrite (bool_decide_eq_false_2 (k = k0)) by done. cbn [dict_get].
    rewrite IH. repeat case_bool_decide; congruence.
Qed.

Lemma dict_set_keys {V} k (v : V) d :
  (dict_set k v d).*1 = if bool_decide (k ∈ d.*1) then d.*1 else d.*1 ++ [k].
Proof.
  induction d as [|[k0 v0] d IH]; cbn [dict_set fmap list_fmap fst].
  - by rewrite bool_decide_eq_false_2 by apply not_elem_of_nil.
  - destruct (decide (k = k0)) as [<-|Hk].
    + rewrite (bool_decide_eq_true_2 (k = k)) by done.
      by rewrite bool_decide_eq_true_2 by left.
    + rewrite (bool_decide_eq_false_2 (k = k0)) by done.
      cbn [fmap list_fmap fst]. rewrite IH.
      destruct (decide (k ∈ d.*1)) as [Hin|Hin].
      * rewrite (bool_decide_eq_true_2 (k ∈ d.*1)) by done.
        by rewrite bool_decide_eq_true_2 by (by right).
      * rewrite (bool_decide_eq_false_2 (k ∈ d.*1)) by done.
        rewrite bool_decide_eq_false_2; [done|].
        by intros [?|?]%elem_of_cons.
Qed.

Lemma dict_get_app {V} k (d1 d2 : list (string * V)) :
  dict_get k (d1 ++ d2) =
    match dict_get k d1 with Some v => Some v | None => dict_get k d2 end.
Proof.
  induction d1 as [|[k0 v0] d1 IH]; cbn [dict_get app]; [done|].
  by case_bool_decide.
Qed.

Lemma dict_get_None {V} k (d : list (string * V)) :
  dict_get k d = None ↔ k ∉ d.*1.
Proof.
  induction d as [|[k0 v0] d IH]; cbn [dict_get fmap list_fmap fst].
  - split; [intros _; apply not_elem_of_nil|done].
  - case_bool_decide as Hk.
    + split; [done|]. intros H. exfalso. apply H. subst. left.
    + rewrite IH. split.
      * by intros ? [?|?]%elem_of_cons.
      * intros H ?. apply H. by right.
Qed.

Lemma fetch_chapters_loop_cases E recs :
  ∀ chapters tr,
    fetch_chapters_loop E recs chapters tr =
      if forallb is_chapter recs
      then (Done (foldl (λ d r, dict_set (fields_of r).1
                                  (meta_of E (fields_of r).2) d)
                        chapters recs), tr)
      else (Raised (KeyError "name"), tr).
Proof.
  induction recs as [|[slug nm|ch st] rest IH]; intros chapters tr;
    [done| |done].
  simpl. unfold mbind, M_bind. simpl. by rewrite IH.
Qed.

Lemma fetch_chapters_loop_chapters E recs chapters tr :
  fetch_chapters_loop E (chapter_record <$> recs) chapters tr =
    (Done (foldl (λ d p, dict_set p.1 (meta_of E p.2) d) chapters recs), tr).
Proof.
  rewrite fetch_chapters_loop_cases.
  assert (forallb is_chapter (chapter_record <$> recs) = true) as ->.
  { by induction recs. }
  do 2 f_equal. revert chapters.
  induction recs as [|[s n] recs IH]; intros chapters; [done|]. apply IH.
Qed.

Lemma load_keys E recs :
  ∀ d : list (string * Meta),
    (foldl (λ d p, dict_set p.1 (meta_of E p.2) d) d recs).*1 =
      d.*1 ++ first_occurrences d.*1 recs.*1.
Proof.
  induction recs as [|[s n] recs IH]; intros d; simpl.
  - by rewrite app_nil_r.
  - rewrite IH, dict_set_keys.
    case_bool_decide; [done|]. by rewrite <- (assoc_L (++)).
Qed.

Lemma load_NoDup E recs :
  ∀ d : list (string * Meta),
    NoDup d.*1 →
    NoDup (foldl (λ d p, dict_set p.1 (meta_of E p.2) d) d recs).*1.
Proof.
  induction recs as [|[s n] recs IH]; intros d Hd; simpl; [done|].
  apply IH. rewrite dict_set_keys. case_bool_decide as Hin; [done|].
  apply NoDup_app. split_and!; [done| |apply NoDup_singleton].
  intros x Hx ->%list_elem_of_singleton. done.
Qed.

Lemma load_get E recs :
  ∀ (d : list (string * Meta)) slug,
    dict_get slug (foldl (λ d p, dict_set p.1 (meta_of E p.2) d) d recs) =
      match dict_get slug (reverse recs) with
      | Some nm => Some (meta_of E nm)
      | None => dict_get slug d
      end.
Proof.
  induction recs as [|[s n] recs IH]; intros d slug; simpl; [done|].
  rewrite IH, reverse_cons, dict_get_app, dict_get_dict_set. simpl.
  destruct (dict_get slug (reverse recs)); [done|].
  by case_bool_decide.
Qed.

(** X1. The chapter loader's loop builds a mapping with one item per
    slug: the slugs are those of the records, each once, in the order in
    which they first occur; a slug that occurs again keeps its place and
    takes the name and the region of its last record; every stored region
    is the classifier's answer on the stored name. *)
Theorem fetch_chapters_loop_last_write_wins (E : Env)
    (recs : list (string * string))
    (tr : Trace) :
  ∃ chapters,
    fetch_chapters_loop E (chapter_record <$> recs) [] tr
      = (Done chapters, tr) ∧
    NoDup chapters.*1 ∧
    chapters.*1 = first_occurrences [] recs.*1 ∧
    (∀ slug, slug ∈ chapters.*1 ↔ slug ∈ recs.*1) ∧
    (∀ slug, dict_get slug chapters
             = meta_of E <$> dict_get slug (reverse recs)) ∧
    length chapters ≤ length recs.
Proof.
  eexists. split; [apply fetch_chapters_loop_chapters|].
  set (chapters := foldl _ _ _).
  assert (Hget : ∀ slug, dict_get slug chapters
                         = meta_of E <$> dict_get slug (reverse recs)).
  { intros slug. unfold chapters. rewrite load_get. simpl.
    by destruct (dict_get slug (reverse recs)). }
  assert (Hin : ∀ slug, slug ∈ chapters.*1 ↔ slug ∈ recs.*1).
  { intros slug.
    destruct (decide (slug ∈ chapters.*1)) as [H|H];
      destruct (decide (slug ∈ recs.*1)) as [H'|H']; try tauto; exfalso.
    - assert (Hr : slug ∉ (reverse recs).*1)
        by (by rewrite fmap_reverse, elem_of_reverse).
      apply dict_get_None in Hr.
      assert (Hc : dict_get slug chapters = None) by (by rewrite Hget, Hr).
      by apply dict_get_None in Hc.
    - apply dict_get_None in H. rewrite Hget in H.
      destruct (dict_get slug (reverse recs)) eqn:Hr; [done|].
      apply dict_get_None in Hr. apply Hr.
      by rewrite fmap_reverse, elem_of_reverse. }
  assert (Hnd : NoDup chapters.*1) by (by apply load_NoDup; constructor).
  split_and!; [done| |done|done|].
  - unfold chapters. by rewrite load_keys.
  - rewrite <- (length_fmap fst chapters), <- (length_fmap fst recs).
    apply submseteq_length, NoDup_submseteq; [done|].
    intros x. apply Hin.
Qed.

(** ** The chapter loader *)

Lemma cf_get_all_serves E fuel path params tr pages :
  serves E tr (BASE_URL +:+ path) params pages → length pages ≤ fuel →
  cf_get_all E fuel path params tr =
    (Done (concat (page_batch <$> pages)),
     tr ++ page_events (BASE_URL +:+ path) params pages).
Proof.
  intros Hs Hlen. unfold cf_get_all.
  by rewrite (cf_get_all_loop_serves E pages) by auto using truthy_BASE_URL.
Qed.

(** X2. When the chapters endpoint is answered with pages of chapter
    records, the loader returns the mapping and then writes one record,
    "Loaded n chapters", where n is the number of different slugs, not the
    number of records fetched.  When a fetched record has no name the
    loader raises KeyError on "name" after the fetch and writes no such
    record. *)
Theorem fetch_chapters_counts_slugs (E : Env) (fuel : nat) (tr : Trace)
    (pages : list Page) :
  serves E tr (BASE_URL +:+ "/chapter") chapter_params pages →
  length pages ≤ fuel →
  (∀ recs, concat (page_batch <$> pages) = chapter_record <$> recs →
     ∃ chapters,
       fetch_chapters E fuel tr =
         (Done chapters,
          tr ++ page_events (BASE_URL +:+ "/chapter") chapter_params pages
             ++ [EvLog INFO (MsgLoaded (length chapters))]) ∧
       length chapters = length (first_occurrences [] recs.*1) ∧
       (∀ slug, dict_get slug chapters
                = meta_of E <$> dict_get slug (reverse recs))) ∧
  (forallb is_chapter (concat (page_batch <$> pages)) = false →
   fetch_chapters E fuel tr =
     (Raised (KeyError "name"),
      tr ++ page_events (BASE_URL +:+ "/chapter") chapter_params pages)).
Proof.
  intros Hs Hlen.
  pose proof (cf_get_all_serves E fuel "/chapter" chapter_params tr pages
                Hs Hlen) as Hfetch.
  split.
  - intros recs Hrecs. rewrite Hrecs in Hfetch.
    exists (foldl (λ d p, dict_set p.1 (meta_of E p.2) d) [] recs).
    split_and!.
    + unfold fetch_chapters. fold chapter_params.
      rewrite (bind_Done _ _ _ _ _ Hfetch).
      unfold mbind at 1, M_bind at 1.
      rewrite fetch_chapters_loop_chapters.
      unfold mbind, M_bind, logging_info, emit, mret, M_ret. simpl.
      by rewrite <- (assoc_L (++)).
    + by rewrite <- (length_fmap fst), load_keys.
    + intros slug. rewrite load_get. simpl.
      by destruct (dict_get slug (reverse recs)).
  - intros Hbad. unfold fetch_chapters. fold chapter_params.
    rewrite (bind_Done _ _ _ _ _ Hfetch).
    unfold mbind at 1, M_bind at 1.
    by rewrite fetch_chapters_loop_cases, Hbad.
Qed.

Lemma fetch_chapters_counts_slugs_witness :
  ∃ chapters,
    fetch_chapters renamed_env 1 [] =
      (Done chapters,
       [] ++ page_events (BASE_URL +:+ "/chapter") chapter_params
               [ {| page_status := 200;
                    page_batch := chapter_record <$> renamed_chapters;
                    page_next := NextNull |} ]
          ++ [EvLog INFO (MsgLoaded (length chapters))]) ∧
    length chapters = 2 ∧
    dict_get "br" chapters = Some (meta_of renamed_env "Brazil").
Proof.
  destruct (proj1 (fetch_chapters_counts_slugs renamed_env 1 []
              [ {| page_status := 200;
                   page_batch := chapter_record <$> renamed_chapters;
                   page_next := NextNull |} ]
              ltac:(repeat split) ltac:(simpl; lia))
              renamed_chapters eq_refl)
    as (chapters & Hrun & Hlen & Hget).
  exists chapters. split; [exact Hrun|]. split; [exact Hlen|].
  exact (Hget "br").
Defined.

(** ** A fetch that breaks off *)

Lemma cf_get_all_loop_answered E pages :
  ∀ fuel tr u params items r,
    truthy u = true →
    answered_then E tr u params pages r →
    length pages < fuel →
    ∃ u' params',
      requests_get E (tr ++ page_events u params pages) u' params' = r ∧
      length (page_events u params pages) = length pages ∧
      ∀ e tr',
        get_page E u' params' (tr ++ page_events u params pages)
          = (Raised e, tr') →
        cf_get_all_loop E fuel (Some u) params items tr = (Raised e, tr').
Proof.
  induction pages as [|p rest IH]; intros fuel tr u params items r Hu Ha Hlen;
    (destruct fuel as [|fuel]; [simpl in Hlen; lia|]);
    rewrite cf_get_all_loop_step by done.
  - exists u, params. simpl in *. rewrite !app_nil_r.
    split_and!; [done|done|]. intros e tr' H. by apply bind_Raised.
  - destruct Ha as (Hr & Hst & Ha).
    erewrite bind_Done by (by apply get_page_ok).
    simpl. destruct (next_or_None (page_next p)) as [u1|] eqn:Hn; [|done].
    destruct (IH fuel (tr ++ [EvGet u params (page_response p)]) u1 None
                 (items ++ page_batch p) r)
      as (u' & params' & Hreq & Hl & Hrun);
      [by eapply next_or_None_truthy|done|simpl in Hlen; lia|].
    exists u', params'. rewrite <- !(assoc_L (++)) in *.
    split_and!; [done|simpl; by f_equal|done].
Qed.

(** X3. Whatever goes wrong at a page of a fetch, the fetch raises and
    returns none of the records of the pages before, and the request that
    went wrong is its last: when the transport raises (timeout, connection
    error) the fetch raises that exception; an error status raises the HTTP
    error whatever the body; a success status with a body that is no JSON
    raises the decoding error; a JSON body without "data" raises KeyError
    on "data". *)
Theorem cf_get_all_breaks_off (E : Env) (fuel : nat) (path : string)
    (params : option Params) (tr : Trace) (pages : list Page) (r : Response) :
  answered_then E tr (BASE_URL +:+ path) params pages r →
  length pages < fuel →
  ∃ u' params',
    let tr' := tr ++ page_events (BASE_URL +:+ path) params pages
                  ++ [EvGet u' params' r] in
    length (page_events (BASE_URL +:+ path) params pages) = length pages ∧
    (∀ e, r = RequestFails e →
          cf_get_all E fuel path params tr = (Raised e, tr')) ∧
    (∀ status_code json,
        r = Resp status_code json → is_error_status status_code = true →
        cf_get_all E fuel path params tr
          = (Raised (HTTPError status_code), tr')) ∧
    (∀ status_code,
        r = Resp status_code None → is_error_status status_code = false →
        cf_get_all E fuel path params tr = (Raised JSONDecodeError, tr')) ∧
    (∀ status_code next,
        r = Resp status_code (Some {| data := None; next_page_url := next |}) →
        is_error_status status_code = false →
        cf_get_all E fuel path params tr = (Raised (KeyError "data"), tr')).
Proof.
  intros Ha Hlen.
  destruct (cf_get_all_loop_answered E pages fuel tr (BASE_URL +:+ path)
              params [] r (truthy_BASE_URL path) Ha Hlen)
    as (u' & params' & Hreq & Hl & Hrun).
  exists u', params'. simpl. split; [done|].
  unfold cf_get_all.
  split_and!.
  - intros e ->. apply Hrun.
    unfold get_page, http_get, mbind, M_bind. rewrite Hreq.
    by rewrite <- (assoc_L (++)).
  - intros st json -> Hst. apply Hrun.
    unfold get_page, http_get, mbind, M_bind. rewrite Hreq.
    by rewrite Hst, <- (assoc_L (++)).
  - intros st -> Hst. apply Hrun.
    unfold get_page, http_get, mbind, M_bind. rewrite Hreq.
    by rewrite Hst, <- (assoc_L (++)).
  - intros st next -> Hst. apply Hrun.
    unfold get_page, http_get, mbind, M_bind. rewrite Hreq. simpl.
    by rewrite Hst, <- (assoc_L (++)).
Qed.

Lemma cf_get_all_breaks_off_witness :
  (∃ tr', cf_get_all (broken_env (RequestFails Timeout)) 5 "/chapter"
            chapter_params [] = (Raised Timeout, tr') ∧ length tr' = 2) ∧
  (∃ tr', cf_get_all (broken_env (Resp 200 None)) 5 "/chapter"
            chapter_params [] = (Raised JSONDecodeError, tr') ∧
          length tr' = 2).
Proof.
  split.
  - destruct (cf_get_all_breaks_off (broken_env (RequestFails Timeout)) 5
                "/chapter" chapter_params [] [first_chapter_page]
                (RequestFails Timeout)
                ltac:(repeat split) ltac:(simpl; lia))
      as (u' & params' & _ & H & _).
    eexists. split; [exact (H Timeout eq_refl)|reflexivity].
  - destruct (cf_get_all_breaks_off (broken_env (Resp 200 None)) 5
                "/chapter" chapter_params [] [first_chapter_page]
                (Resp 200 None)
                ltac:(repeat split) ltac:(simpl; lia))
      as (u' & params' & _ & _ & _ & H & _).
    eexists. split; [exact (H 200 eq_refl eq_refl)|reflexivity].
Defined.

(** ** The classifier, read backwards *)

Lemma REGION_MAP_keys region countries :
  (region, countries) ∈ REGION_MAP →
  region = "AMR" ∨ region = "PRC" ∨ region = "APJ".
Proof.
  unfold REGION_MAP. rewrite !elem_of_cons, elem_of_nil.
  intros [[= -> _]|[[= -> _]|[[= -> _]|[]]]]; tauto.
Qed.

Lemma REGION_MAP_functional region countries countries' :
  (region, countries) ∈ REGION_MAP → (region, countries') ∈ REGION_MAP →
  countries = countries'.
Proof.
  unfold REGION_MAP. rewrite !elem_of_cons, !elem_of_nil.
  intros [[= -> ->]|[[= -> ->]|[[= -> ->]|[]]]]
         [[= <-]|[[= <-]|[[= <-]|[]]]]; reflexivity.
Qed.

(** X4. The classifier answers one of the five tags, and each answer tells
    where the name stands: Other only for a name that lowercases to
    "global festival", AMR, PRC or APJ only for a name whose lowercase form
    is an element of that region's country list, and EMEA only for a name
    that is neither. *)
Theorem chapter_to_region_sound (E : Env) (name : string) :
  chapter_to_region E name ∈ REGION_TAGS ∧
  (chapter_to_region E name = "Other" → str_lower E name = "global festival") ∧
  (∀ region countries,
      (region, countries) ∈ REGION_MAP → chapter_to_region E name = region →
      str_lower E name ∈ countries) ∧
  (chapter_to_region E name = "EMEA" →
   str_lower E name ≠ "global festival" ∧
   ∀ region countries,
     (region, countries) ∈ REGION_MAP → str_lower E name ∉ countries).
Proof.
  split; [apply chapter_to_region_tag|].
  unfold chapter_to_region. case_bool_decide as Hgf.
  { split_and!; [done| |done].
    intros region countries Hr <-.
    by destruct (REGION_MAP_keys _ _ Hr) as [?|[?|?]]. }
  destruct (first_region (str_lower E name) REGION_MAP) as [r|] eqn:Hf.
  - apply first_region_Some in Hf as (cs & Hr & Hin).
    split_and!.
    + intros ->. by destruct (REGION_MAP_keys _ _ Hr) as [?|[?|?]].
    + intros region countries Hr' <-.
      by rewrite (REGION_MAP_functional _ _ _ Hr' Hr).
    + intros ->. by destruct (REGION_MAP_keys _ _ Hr) as [?|[?|?]].
  - split_and!; [done| |].
    + intros region countries Hr <-.
      by destruct (REGION_MAP_keys _ _ Hr) as [?|[?|?]].
    + intros _. split; [done|]. by apply first_region_None.
Qed.

Lemma chapter_to_region_sound_witness :
  (str_lower festival_env "Viet Nam" ≠ "global festival" ∧
   ∀ region countries,
     (region, countries) ∈ REGION_MAP →
     str_lower festival_env "Viet Nam" ∉ countries) ∧
  str_lower festival_env South_Korea_kelvin
  ∈ [ "bangladesh"; "india"; "indonesia"; "japan"; "malaysia"; "singapore";
      "south korea"; "taiwan"; "thailand"; "vietnam"; "australia";
      "new zealand" ].
Proof.
  split.
  - exact (proj2 (proj2 (proj2
             (chapter_to_region_sound festival_env "Viet Nam"))) eq_refl).
  - apply (proj1 (proj2 (proj2
             (chapter_to_region_sound festival_env South_Korea_kelvin)))
             "APJ").
    + right. right. left.
    + reflexivity.
Defined.

(** ** The workbook *)

Lemma string_length_append (a b : string) :
  String.length (a +:+ b) = String.length a + String.length b.
Proof.
  induction a as [|c a IH]; [done|].
  change (S (String.length (a +:+ b))
          = S (String.length a) + String.length b).
  by rewrite IH.
Qed.

Lemma string_append_inj_suffix (s : string) :
  ∀ a b, a +:+ s = b +:+ s → a = b.
Proof.
  induction a as [|c a IH]; intros [|d b] H.
  - done.
  - apply (f_equal String.length) in H.
    rewrite !string_length_append in H. simpl in H. lia.
  - apply (f_equal String.length) in H.
    rewrite !string_length_append in H. simpl in H. lia.
  - change (String c (a +:+ s) = String d (b +:+ s)) in H.
    injection H as -> H. f_equal. by apply IH.
Qed.

Lemma workbook_name_inj (tag1 tag2 : string) :
  "award_force_stage1_" +:+ tag1 +:+ ".xlsx"
  = "award_force_stage1_" +:+ tag2 +:+ ".xlsx" →
  tag1 = tag2.
Proof.
  intros H. apply (inj (String.append _)) in H.
  by apply string_append_inj_suffix in H.
Qed.

(** X5. A workbook that is written gets the name
    award_force_stage1_<date>.xlsx in the working directory, with the
    rows it was given, in one write.  Two writes go to the same file
    exactly when their dates are the same: a second run on a day
    overwrites the workbook of the first, and a run on another day never
    does. *)
Theorem make_workbook_one_file_per_day (E1 E2 : Env) (rows1 rows2 : list Row)
    (tr1 tr2 : Trace) (fp1 fp2 : Path) (tr1' tr2' : Trace) :
  make_workbook E1 rows1 tr1 = (Done fp1, tr1') →
  make_workbook E2 rows2 tr2 = (Done fp2, tr2') →
  fp1 = {| parent := "";
           name := "award_force_stage1_" +:+ today E1 tr1 +:+ ".xlsx" |} ∧
  tr1' = tr1 ++ [EvExcel fp1 rows1 None] ∧
  (fp1 = fp2 ↔ today E1 tr1 = today E2 tr2).
Proof.
  unfold make_workbook. intros H1 H2.
  destruct (to_excel E1 tr1 _ rows1) eqn:Hx1; [done|].
  destruct (to_excel E2 tr2 _ rows2) eqn:Hx2; [done|].
  injection H1 as Hfp1 Htr1. injection H2 as Hfp2 Htr2.
  subst fp1 tr1' fp2 tr2'.
  split; [reflexivity|]. split; [reflexivity|]. split.
  - intros H. apply (f_equal name) in H. cbn [name] in H.
    by apply workbook_name_inj.
  - by intros ->.
Qed.

Lemma make_workbook_one_file_per_day_witness :
  (workbook_20250722 =
     {| parent := "";
        name := "award_force_stage1_" +:+ today festival_env [] +:+ ".xlsx" |} ∧
   [EvExcel workbook_20250722 festival_rows None] =
     [] ++ [EvExcel workbook_20250722 festival_rows None] ∧
   (workbook_20250722 = workbook_20250722 ↔
    today festival_env [] = today failing_env [start_marker])) ∧
  make_workbook next_day_env festival_rows [] =
    (Done workbook_20250723, [EvExcel workbook_20250723 festival_rows None]) ∧
  workbook_20250722 ≠ workbook_20250723.
Proof.
  split; [|split; [reflexivity|]].
  - exact (make_workbook_one_file_per_day festival_env failing_env
             festival_rows (tail festival_rows)
             [] [start_marker] workbook_20250722 workbook_20250722
             [EvExcel workbook_20250722 festival_rows None]
             [start_marker; EvExcel workbook_20250722 (tail festival_rows) None]
             eq_refl eq_refl).
  - intros Hsame.
    destruct (make_workbook_one_file_per_day festival_env next_day_env
                festival_rows festival_rows
                [] [] workbook_20250722 workbook_20250723
                [EvExcel workbook_20250722 festival_rows None]
                [EvExcel workbook_20250723 festival_rows None]
                eq_refl eq_refl) as (_ & _ & Hiff).
    apply Hiff in Hsame. discriminate Hsame.
Defined.

(** ** Every entry of a known chapter is counted once *)

Lemma tally_both slug es :
  tally slug true es + tally slug false es
  = length (filter (λ e : string * string, e.1 = slug) es).
Proof.
  induction es as [|[ch st] es IH]; [done|].
  rewrite !tally_cons, filter_cons. cbn [fst snd].
  destruct (decide (ch = slug)) as [->|Hne].
  - destruct (bool_decide (st = "submitted")).
    + rewrite (bool_decide_eq_true_2 (slug = slug ∧ true = true)) by done.
      rewrite (bool_decide_eq_false_2 (slug = slug ∧ true = false))
        by (by intros [_ ?]).
      simpl. lia.
    + rewrite (bool_decide_eq_false_2 (slug = slug ∧ false = true))
        by (by intros [_ ?]).
      rewrite (bool_decide_eq_true_2 (slug = slug ∧ false = false)) by done.
      simpl. lia.
  - rewrite !bool_decide_eq_false_2 by (by intros [? _]). simpl. lia.
Qed.

Lemma sum_list_indicator (x : string) (slugs : list string) :
  NoDup slugs →
  sum_list ((λ s, if bool_decide (x = s) then 1 else 0) <$> slugs)
  = if bool_decide (x ∈ slugs) then 1 else 0.
Proof.
  induction 1 as [|s slugs Hs Hnd IH]; cbn [fmap list_fmap sum_list].
  - by rewrite bool_decide_eq_false_2 by apply not_elem_of_nil.
  - rewrite IH. destruct (decide (x = s)) as [->|Hne].
    + rewrite (bool_decide_eq_true_2 (s = s)) by done.
      rewrite (bool_decide_eq_false_2 (s ∈ slugs)) by done.
      by rewrite bool_decide_eq_true_2 by left.
    + rewrite (bool_decide_eq_false_2 (x = s)) by done.
      destruct (decide (x ∈ slugs)) as [Hin|Hin].
      * rewrite (bool_decide_eq_true_2 (x ∈ slugs)) by done.
        by rewrite bool_decide_eq_true_2 by (by right).
      * rewrite (bool_decide_eq_false_2 (x ∈ slugs)) by done.
        rewrite bool_decide_eq_false_2; [done|].
        by intros [?|?]%elem_of_cons.
Qed.

Lemma sum_list_plus {A} (f g : A → nat) (l : list A) :
  sum_list ((λ x, f x + g x) <$> l) = sum_list (f <$> l) + sum_list (g <$> l).
Proof. induction l as [|x l IH]; csimpl; [done|]. rewrite IH. lia. Qed.

Lemma sum_list_occurrences (slugs : list string) (es : list (string * string)) :
  NoDup slugs →
  sum_list ((λ s, length (filter (λ e : string * string, e.1 = s) es)) <$> slugs)
  = length (known slugs es).
Proof.
  intros Hnd. unfold known. induction es as [|[ch st] es IH].
  - clear Hnd. induction slugs as [|s slugs IHs]; [done|].
    cbn [fmap list_fmap sum_list]. by rewrite IHs.
  - rewrite (filter_cons (λ e, e.1 ∈ slugs)). cbn [fst].
    rewrite (list_fmap_ext _
               (λ s, (if bool_decide (ch = s) then 1 else 0)
                     + length (filter (λ e : string * string, e.1 = s) es))
               slugs).
    2:{ intros i s _. rewrite filter_cons. cbn [fst].
        destruct (decide (ch = s)) as [->|Hne].
        - by rewrite bool_decide_eq_true_2.
        - by rewrite bool_decide_eq_false_2. }
    rewrite sum_list_plus, IH, sum_list_indicator by done.
    destruct (decide (ch ∈ slugs)).
    + by rewrite bool_decide_eq_true_2.
    + by rewrite bool_decide_eq_false_2.
Qed.

Lemma sum_list_Permutation (l l' : list nat) :
  l ≡ₚ l' → sum_list l = sum_list l'.
Proof.
  induction 1 as [|x l l' _ IH|x y l|l1 l2 l3 _ IH1 _ IH2]; csimpl; lia.
Qed.

Lemma aggregated_lookup chapters es13 es18 slug :
  count_pass K18_sub K18_prog es18
    (count_pass K13_sub K13_prog es13 (init_counts chapters)) !! slug =
    if bool_decide (slug ∈ chapters.*1)
    then Some {| c13_sub := tally slug true es13;
                 c13_prog := tally slug false es13;
                 c18_sub := tally slug true es18;
                 c18_prog := tally slug false es18 |}
    else None.
Proof.
  rewrite !count_pass_lookup, init_counts_lookup. by case_bool_decide.
Qed.

Lemma grand_total_aggregated chapters es13 es18 :
  NoDup chapters.*1 →
  grand_total chapters.*1
    (count_pass K18_sub K18_prog es18
       (count_pass K13_sub K13_prog es13 (init_counts chapters)))
  = length (known chapters.*1 es13) + length (known chapters.*1 es18).
Proof.
  intros Hnd. unfold grand_total.
  rewrite <- !sum_list_occurrences, <- sum_list_plus by done.
  f_equal. apply list_fmap_ext. intros i slug Hin%list_elem_of_lookup_2.
  rewrite aggregated_lookup, bool_decide_eq_true_2 by done.
  rewrite <- !tally_both. unfold sum_values. simpl. lia.
Qed.

Lemma rows_total counts items rows :
  Forall2 (row_of counts) items rows →
  Forall (λ r, Total r = Y13_Submitted r + Y13_In_Progress r
                         + Y18_Submitted r + Y18_In_Progress r) rows →
  sum_list (Total <$> rows) = grand_total items.*1 counts.
Proof.
  unfold grand_total.
  induction 1 as [|kv r items rows (_ & _ & Hc) _ IH]; intros Htot; [done|].
  apply Forall_cons in Htot as [Hr Htot].
  cbn [fmap list_fmap sum_list]. rewrite IH by done.
  cbn [fst]. rewrite Hc, Hr. unfold sum_values. simpl. lia.
Qed.

(** X6. Every fetched entry of a known chapter is counted exactly once:
    over the chapters of the mapping, the counters of the aggregation add
    up to the number of fetched entries whose chapter is in the mapping,
    and so do the totals of the rows of the report. *)
Theorem totals_add_up (E : Env) (fuel : nat) (chapters : list (string * Meta))
    (tr : Trace) (es13 es18 : list (string * string)) (tr1 tr2 : Trace) :
  NoDup chapters.*1 →
  gather_entries E fuel CATEGORY_13_17 tr
    = (Done (entry_record <$> es13), tr1) →
  gather_entries E fuel CATEGORY_above18 tr1
    = (Done (entry_record <$> es18), tr2) →
  ∃ counts rows,
    build_counts E fuel chapters tr = (Done counts, tr2) ∧
    compose E chapters counts tr2 = (Done rows, tr2) ∧
    grand_total chapters.*1 counts
      = length (known chapters.*1 es13) + length (known chapters.*1 es18) ∧
    sum_list (Total <$> rows)
      = length (known chapters.*1 es13) + length (known chapters.*1 es18).
Proof.
  intros Hnd H13 H18.
  set (counts := count_pass K18_sub K18_prog es18
                   (count_pass K13_sub K13_prog es13 (init_counts chapters))).
  destruct (compose_rows_covered (sorted (sort_key E) chapters) counts)
    with (i := 1) (tr := tr2) as [rows Hrows].
  { intros [slug meta] Hin. unfold counts.
    rewrite aggregated_lookup, bool_decide_eq_true_2; [by eexists|].
    rewrite (sorted_Permutation (sort_key E) chapters) in Hin.
    apply list_elem_of_fmap. by exists (slug, meta). }
  exists counts, rows.
  assert (Hgrand := grand_total_aggregated chapters es13 es18 Hnd).
  split_and!; [|done|done|].
  - unfold build_counts.
    rewrite (bind_Done _ _ _ _ _ H13).
    unfold mbind at 1, M_bind at 1. rewrite count_entries_entries.
    rewrite (bind_Done _ _ _ _ _ H18). by rewrite count_entries_entries.
  - apply compose_rows_Done in Hrows as (_ & Hrel & _ & Htot).
    rewrite (rows_total _ _ _ Hrel Htot), <- Hgrand.
    unfold grand_total. apply sum_list_Permutation.
    apply fmap_Permutation, fmap_Permutation, sorted_Permutation.
Qed.

Lemma totals_add_up_witness :
  ∃ counts rows,
    build_counts festival_env 1 festival_chapters [] =
      (Done counts,
       (gather_entries festival_env 1 CATEGORY_above18
          (gather_entries festival_env 1 CATEGORY_13_17 []).2).2) ∧
    compose festival_env festival_chapters counts
      (gather_entries festival_env 1 CATEGORY_above18
         (gather_entries festival_env 1 CATEGORY_13_17 []).2).2 =
      (Done rows,
       (gather_entries festival_env 1 CATEGORY_above18
          (gather_entries festival_env 1 CATEGORY_13_17 []).2).2) ∧
    grand_total festival_chapters.*1 counts
      = length (known festival_chapters.*1 festival_es13)
        + length (known festival_chapters.*1 festival_es18) ∧
    sum_list (Total <$> rows)
      = length (known festival_chapters.*1 festival_es13)
        + length (known festival_chapters.*1 festival_es18).
Proof.
  apply (totals_add_up festival_env 1 festival_chapters []
           festival_es13 festival_es18
           (gather_entries festival_env 1 CATEGORY_13_17 []).2).
  - unfold festival_chapters. simpl. repeat constructor.
    + intros [[=]|[]%elem_of_nil]%elem_of_cons.
    + apply not_elem_of_nil.
  - reflexivity.
  - reflexivity.
Defined.

(** ** From the aggregation to the workbook *)

Lemma build_counts_Done_dom E fuel chapters tr counts tr' :
  build_counts E fuel chapters tr = (Done counts, tr') →
  ∀ slug, is_Some (counts !! slug) ↔ slug ∈ chapters.*1.
Proof.
  unfold build_counts, mbind, M_bind.
  destruct (gather_entries E fuel CATEGORY_13_17 tr) as [[recs13|e|] tr1];
    [|done|done].
  rewrite count_entries_cases.
  destruct (forallb is_entry recs13); [|done].
  destruct (gather_entries E fuel CATEGORY_above18 tr1) as [[recs18|e|] tr2];
    [|done|done].
  rewrite count_entries_cases.
  destruct (forallb is_entry recs18); [|done].
  intros [= <- <-] slug.
  rewrite !count_pass_lookup, init_counts_lookup.
  case_bool_decide as Hin; simpl; split.
  - done.
  - intros _. by eexists.
  - by intros [? ?].
  - done.
Qed.

Lemma fetch_chapters_Done_regions E fuel tr chapters tr' :
  fetch_chapters E fuel tr = (Done chapters, tr') →
  Forall (λ kv, meta_region kv.2 = chapter_to_region E (meta_name kv.2))
         chapters.
Proof.
  unfold fetch_chapters, mbind, M_bind.
  destruct (cf_get_all E fuel "/chapter" _ tr) as [[recs|e|] tr1];
    [|done|done].
  destruct (fetch_chapters_loop E recs [] tr1) as [[chs|e|] tr2] eqn:Hloop;
    [|done|done].
  intros [= <- <-]. by eapply fetch_chapters_loop_regions.
Qed.

(** X7. Once the chapters are loaded and the entries aggregated, the
    composer cannot fail: it finds counts for every chapter and makes one
    row per chapter.  The workbook is then written with those rows; when
    the write fails the body of the run raises that exception at once,
    without a record of a saved workbook and without delivery, and when it
    succeeds the body records the saved workbook and goes on to the
    delivery of that very file. *)
Theorem main_body_after_aggregation (E : Env) (fuel : nat) (tr : Trace)
    (chapters : list (string * Meta)) (tr1 : Trace)
    (counts : gmap string Counts) (tr2 : Trace) :
  fetch_chapters E fuel tr = (Done chapters, tr1) →
  build_counts E fuel chapters tr1 = (Done counts, tr2) →
  ∃ rows,
    compose E chapters counts tr2 = (Done rows, tr2) ∧
    length rows = length chapters ∧
    Forall (λ r, Region r ∈ REGION_TAGS) rows ∧
    (∀ e,
        to_excel E tr2
          {| parent := "";
             name := "award_force_stage1_" +:+ today E tr2 +:+ ".xlsx" |}
          rows = Some e →
        main_body E fuel tr =
          (Raised e,
           tr2 ++ [EvExcel
                     {| parent := "";
                        name := "award_force_stage1_" +:+ today E tr2
                                +:+ ".xlsx" |}
                     rows (Some e)])) ∧
    (to_excel E tr2
       {| parent := "";
          name := "award_force_stage1_" +:+ today E tr2 +:+ ".xlsx" |}
       rows = None →
     main_body E fuel tr =
       send_to_telegram E
         {| parent := "";
            name := "award_force_stage1_" +:+ today E tr2 +:+ ".xlsx" |}
         (tr2 ++ [EvExcel
                    {| parent := "";
                       name := "award_force_stage1_" +:+ today E tr2
                               +:+ ".xlsx" |}
                    rows None;
                  EvLog INFO
                    (MsgSaved
                       {| parent := "";
                          name := "award_force_stage1_" +:+ today E tr2
                                  +:+ ".xlsx" |})])).
Proof.
  intros Hload Hagg.
  pose proof (build_counts_Done_dom _ _ _ _ _ _ Hagg) as Hdom.
  pose proof (fetch_chapters_Done_regions _ _ _ _ _ Hload) as Hreg.
  destruct (compose_rows_covered (sorted (sort_key E) chapters) counts)
    with (i := 1) (tr := tr2) as [rows Hrows].
  { intros [slug meta] Hin. apply Hdom.
    rewrite (sorted_Permutation (sort_key E) chapters) in Hin.
    apply list_elem_of_fmap. by exists (slug, meta). }
  exists rows.
  assert (Hbody : main_body E fuel tr =
            (wb_path ← make_workbook E rows;
             logging_info (MsgSaved wb_path);;
             send_to_telegram E wb_path) tr2).
  { unfold main_body. rewrite (bind_Done _ _ _ _ _ Hload).
    rewrite (bind_Done _ _ _ _ _ Hagg).
    by rewrite (bind_Done _ _ _ _ _ Hrows). }
  pose proof Hrows as Hrows'.
  apply compose_rows_Done in Hrows' as (_ & Hrel & Hno & _).
  split_and!.
  - done.
  - rewrite <- (length_fmap No), Hno, length_seq.
    by rewrite (sorted_Permutation (sort_key E) chapters).
  - assert (Hs : Forall (λ kv, meta_region kv.2
                               = chapter_to_region E (meta_name kv.2))
                        (sorted (sort_key E) chapters)).
    { by rewrite (sorted_Permutation (sort_key E) chapters). }
    clear Hrows Hbody Hno Hreg.
    induction Hrel as [|kv r items rows' (Hr & _) _ IH]; [done|].
    apply Forall_cons in Hs as [Hkv Hs]. constructor; [|by apply IH].
    rewrite Hr, Hkv. apply chapter_to_region_tag.
  - intros e He. rewrite Hbody.
    unfold mbind, M_bind, make_workbook. by rewrite He.
  - intros Hok. rewrite Hbody.
    unfold mbind, M_bind, make_workbook. rewrite Hok.
    unfold logging_info, emit. by rewrite <- (assoc_L (++)).
Qed.

Lemma main_body_after_aggregation_witness :
  ∃ rows,
    compose disk_full_env festival_chapters
      (<["A" := {| c13_sub := 1; c13_prog := 1; c18_sub := 0; c18_prog := 0 |}]>
       (<["B" := {| c13_sub := 0; c13_prog := 0; c18_sub := 1; c18_prog := 0 |}]>
        ∅))
      (build_counts disk_full_env 1 festival_chapters
         (fetch_chapters disk_full_env 1 []).2).2 =
      (Done rows,
       (build_counts disk_full_env 1 festival_chapters
          (fetch_chapters disk_full_env 1 []).2).2) ∧
    length rows = length festival_chapters ∧
    main_body disk_full_env 1 [] =
      (Raised (OSError "No space left on device"),
       (build_counts disk_full_env 1 festival_chapters
          (fetch_chapters disk_full_env 1 []).2).2
       ++ [EvExcel workbook_20250722 rows
             (Some (OSError "No space left on device"))]).
Proof.
  destruct (main_body_after_aggregation disk_full_env 1 [] festival_chapters
              (fetch_chapters disk_full_env 1 []).2
              (<["A" := {| c13_sub := 1; c13_prog := 1;
                           c18_sub := 0; c18_prog := 0 |}]>
               (<["B" := {| c13_sub := 0; c13_prog := 0;
                            c18_sub := 1; c18_prog := 0 |}]> ∅))
              (build_counts disk_full_env 1 festival_chapters
                 (fetch_chapters disk_full_env 1 []).2).2)
    as (rows & Hc & Hl & _ & Hfail & _).
  - reflexivity.
  - vm_compute. reflexivity.
  - exists rows. split; [exact Hc|]. split; [exact Hl|].
    exact (Hfail (OSError "No space left on device") eq_refl).
Defined.

(** ** The artifact in a run *)

Lemma emits_send_to_telegram_delivers E file_path :
  emits (λ ev, ¬ is_excel ev ∧ delivers_only file_path ev)
        (send_to_telegram E file_path).
Proof.
  unfold send_to_telegram.
  destruct (negb _); [apply emits_emit; simpl; tauto|].
  apply emits_bind.
  { intros tr. unfold open_file.
    exists [EvOpen file_path (open_rb E tr file_path)].
    split; [by destruct (open_rb E tr file_path)|].
    constructor; [simpl; tauto|done]. }
  intros _. apply emits_bind.
  { intros tr. eexists [_]. split; [reflexivity|].
    constructor; [simpl; tauto|done]. }
  intros [e|st text]; [apply emits_raise|].
  destruct (ok st); apply emits_emit; simpl; tauto.
Qed.

Lemma delivers_only_no_artifact fp ev :
  ¬ artifact_event ev → delivers_only fp ev.
Proof. destruct ev; simpl; tauto. Qed.

Lemma workbook_and_delivery_shape E rows tr :
  ∃ evs,
    ((wb_path ← make_workbook E rows;
      logging_info (MsgSaved wb_path);;
      send_to_telegram E wb_path) tr).2 = tr ++ evs ∧
    one_workbook_then_delivery evs.
Proof.
  unfold mbind, M_bind, make_workbook.
  set (fp := {| parent := ""; name := _ |}).
  destruct (to_excel E tr fp rows) as [e|] eqn:Hx.
  - exists [EvExcel fp rows (Some e)]. split; [done|]. right.
    exists [], fp, rows, (Some e), []. by split_and!.
  - unfold logging_info, emit.
    destruct (emits_send_to_telegram_delivers E fp
                ((tr ++ [EvExcel fp rows None]) ++ [EvLog INFO (MsgSaved fp)]))
      as (evs & Htr & Hne).
    exists ([EvExcel fp rows None] ++ [EvLog INFO (MsgSaved fp)] ++ evs).
    split.
    + destruct (send_to_telegram E fp _) as [out tr'] eqn:Hs.
      simpl in Htr. subst tr'. rewrite <- !(assoc_L (++)).
      by destruct out.
    + right. exists [], fp, rows, None, ([EvLog INFO (MsgSaved fp)] ++ evs).
      split_and!; [done|done| | |done].
      * apply Forall_app. split; [constructor; [tauto|done]|].
        eapply Forall_impl; [exact Hne|]. by intros ev [? _].
      * apply Forall_app. split; [by constructor|].
        eapply Forall_impl; [exact Hne|]. by intros ev [_ ?].
Qed.

Lemma shape_after_fetch {A B} (m : M A) (k : A → M B) :
  fetch_phase m →
  (∀ a tr, ∃ evs, (k a tr).2 = tr ++ evs ∧ one_workbook_then_delivery evs) →
  ∀ tr, ∃ evs, ((m ≫= k) tr).2 = tr ++ evs ∧ one_workbook_then_delivery evs.
Proof.
  intros Hm Hk tr. destruct (Hm tr) as (evs1 & Htr & Hna & _).
  assert (Hna1 : Forall (λ ev, ¬ artifact_event ev) evs1).
  { eapply Forall_impl; [exact Hna|]. intros ev (? & _). tauto. }
  unfold mbind, M_bind.
  destruct (m tr) as [[a|e|] tr1]; simpl in Htr; subst tr1;
    [|exists evs1; split; [done|by left]..].
  destruct (Hk a (tr ++ evs1)) as (evs2 & Htr2 & Hshape).
  exists (evs1 ++ evs2). rewrite Htr2, (assoc_L (++)). split; [done|].
  destruct Hshape
    as [Hnone|(pre & fp & rows & res & post & -> & Hpre & Hpost & Hdel & Hres)].
  - left. by apply Forall_app.
  - right. exists (evs1 ++ pre), fp, rows, res, post.
    rewrite <- !(assoc_L (++)). split_and!; [done| |done|done|done].
    by apply Forall_app.
Qed.

Lemma main_body_shape E fuel tr :
  ∃ evs, (main_body E fuel tr).2 = tr ++ evs ∧ one_workbook_then_delivery evs.
Proof.
  revert tr. unfold main_body.
  apply shape_after_fetch; [apply fetch_phase_fetch_chapters|].
  intros chapters.
  apply shape_after_fetch; [apply fetch_phase_build_counts|].
  intros counts.
  apply shape_after_fetch; [apply fetch_phase_compose|].
  intros rows tr. apply workbook_and_delivery_shape.
Qed.

Lemma shape_wrap (a evs b : list Event) :
  Forall (λ ev, ¬ artifact_event ev) a →
  Forall (λ ev, ¬ artifact_event ev) b →
  one_workbook_then_delivery evs →
  one_workbook_then_delivery (a ++ evs ++ b).
Proof.
  intros Ha Hb
    [Hnone|(pre & fp & rows & res & post & -> & Hpre & Hpost & Hdel & Hres)].
  - left. by rewrite !Forall_app.
  - right. exists (a ++ pre), fp, rows, res, (post ++ b).
    rewrite <- !(assoc_L (++)). split_and!; [done| | | |].
    + by apply Forall_app.
    + apply Forall_app. split; [done|].
      eapply Forall_impl; [exact Hb|]. intros [] H; simpl in *; tauto.
    + apply Forall_app. split; [done|].
      eapply Forall_impl; [exact Hb|]. intros ev. apply delivers_only_no_artifact.
    + intros Hr. apply Forall_app. split; [by apply Hres|done].
Qed.

(** X8. Whatever happens in a run, it writes the workbook at most once;
    before that write it neither opens nor uploads anything; after a write
    that failed it does nothing more about the artifact.  What a run opens
    or uploads is the file of that one write, which succeeded, earlier in
    the same run: the file is opened by the path that was written and
    posted under its name, and no other workbook is written in the run. *)
Theorem main_writes_before_it_delivers (E : Env) (fuel : nat) (tr : Trace)
    (evs : list Event) :
  (main E fuel tr).2 = tr ++ evs →
  one_workbook_then_delivery evs ∧
  (∀ i ev, evs !! i = Some ev → delivery_event ev →
     ∃ j fp rows,
       j < i ∧ evs !! j = Some (EvExcel fp rows None) ∧
       delivers_only fp ev ∧
       ∀ j' ev', evs !! j' = Some ev' → is_excel ev' → j' = j).
Proof.
  intros Hevs.
  assert (Hshape : one_workbook_then_delivery evs).
  { destruct (truthy (API_KEY E)) eqn:Hk.
    - rewrite main_with_key in Hevs by done.
      destruct (main_body_shape E fuel (tr ++ [start_marker]))
        as (body & Htr & Hshape).
      destruct (main_body E fuel (tr ++ [start_marker])) as [[[]|e|] tr'];
        simpl in Htr, Hevs; rewrite Htr in Hevs; clear Htr;
        rewrite <- !(assoc_L (++)) in Hevs;
        apply (inj (app _)) in Hevs; subst evs.
      + apply (shape_wrap [start_marker] body [end_marker]); try done;
          (constructor; [intros []|done]).
      + apply (shape_wrap [start_marker] body
                 [EvLog ERROR (MsgRunFailed e); end_marker]); try done.
        * constructor; [intros []|done].
        * constructor; [intros []|constructor; [intros []|done]].
      + rewrite <- (app_nil_r body).
        apply (shape_wrap [start_marker] body []); try done.
        constructor; [intros []|done].
    - rewrite main_no_key in Hevs by done.
      apply (inj (app _)) in Hevs. subst evs. left.
      constructor; [intros []|done]. }
  split; [done|].
  intros i ev Hi Hdel.
  assert (Hart : artifact_event ev) by (by destruct ev).
  destruct Hshape
    as [Hnone|(pre & fp & rows & res & post & -> & Hpre & Hpost & Hfp & Hres)].
  { exfalso. rewrite Forall_forall in Hnone.
    eapply Hnone; [by eapply list_elem_of_lookup_2|done]. }
  destruct (decide (i < length pre)) as [Hlt|Hge].
  { exfalso. rewrite lookup_app_l in Hi by done.
    rewrite Forall_forall in Hpre.
    eapply Hpre; [by eapply list_elem_of_lookup_2|done]. }
  rewrite lookup_app_r in Hi by lia.
  destruct (i - length pre) as [|n] eqn:Hn.
  { simpl in Hi. injection Hi as <-. by destruct Hdel. }
  simpl in Hi.
  destruct res as [e|].
  { exfalso. specialize (Hres ltac:(done)). rewrite Forall_forall in Hres.
    eapply Hres; [by eapply list_elem_of_lookup_2|done]. }
  exists (length pre), fp, rows. split_and!.
  - lia.
  - rewrite lookup_app_r by lia. by rewrite Nat.sub_diag.
  - rewrite Forall_forall in Hfp. apply Hfp.
    by eapply list_elem_of_lookup_2.
  - intros j' ev' Hj' Hx.
    destruct (decide (j' < length pre)) as [Hlt'|Hge'].
    { exfalso. rewrite lookup_app_l in Hj' by done.
      rewrite Forall_forall in Hpre.
      eapply Hpre; [by eapply list_elem_of_lookup_2|by destruct ev']. }
    rewrite lookup_app_r in Hj' by lia.
    destruct (j' - length pre) as [|n'] eqn:Hn'; [lia|].
    simpl in Hj'. exfalso. rewrite Forall_forall in Hpost.
    eapply Hpost; [by eapply list_elem_of_lookup_2|done].
Qed.

Lemma main_writes_before_it_delivers_witness :
  one_workbook_then_delivery (main festival_env 1 []).2 ∧
  one_workbook_then_delivery (main disk_full_env 1 []).2 ∧
  ∃ j fp rows,
    j < 10 ∧ (main festival_env 1 []).2 !! j = Some (EvExcel fp rows None) ∧
    delivers_only fp
      (EvPost "https://api.telegram.org/bottoken/sendDocument" "42"
              "award_force_stage1_20250722.xlsx"
              "award_force_stage1_20250722.xlsx" (PostResp 200 "ok")) ∧
    ∀ j' ev', (main festival_env 1 []).2 !! j' = Some ev' →
              is_excel ev' → j' = j.
Proof.
  split_and!.
  - exact (proj1 (main_writes_before_it_delivers festival_env 1 []
                    (main festival_env 1 []).2 eq_refl)).
  - exact (proj1 (main_writes_before_it_delivers disk_full_env 1 []
                    (main disk_full_env 1 []).2 eq_refl)).
  - exact (proj2 (main_writes_before_it_delivers festival_env 1 []
                    (main festival_env 1 []).2 eq_refl)
             10
             (EvPost "https://api.telegram.org/bottoken/sendDocument" "42"
                     "award_force_stage1_20250722.xlsx"
                     "award_force_stage1_20250722.xlsx" (PostResp 200 "ok"))
             eq_refl I).
Defined.

(** ** A run without delivery credentials *)







(** ** Ties in the report order *)

Lemma rows_of_key E counts k items rows :
  Forall2 (row_of counts) items rows →
  Chapter_Name <$> filter (λ r, row_key E r = k) rows =
  (λ kv, meta_name kv.2) <$> filter (λ kv, sort_key E kv = k) items.
Proof.
  induction 1 as [|kv r items rows (Hr & Hn & _) _ IH]; [done|].
  rewrite !filter_cons.
  assert (Hkey : row_key E r = sort_key E kv).
  { unfold row_key, sort_key. by rewrite Hr, Hn. }
  rewrite Hkey. destruct (decide (sort_key E kv = k)); csimpl; by rewrite IH, ?Hn.
Qed.

(** X10. Chapters whose sort keys are equal (same region, names with one
    lowercase form) appear in the report in the order they have in the
    chapters mapping: for every key, the rows of that key are the chapters
    of that key, in mapping order. *)
Theorem compose_keeps_ties_in_mapping_order (E : Env)
    (chapters : list (string * Meta)) (counts : gmap string Counts)
    (tr : Trace) (rows : list Row) (tr' : Trace) (k : string * string) :
  compose E chapters counts tr = (Done rows, tr') →
  Chapter_Name <$> filter (λ r, row_key E r = k) rows =
  (λ kv, meta_name kv.2) <$> filter (λ kv, sort_key E kv = k) chapters.
Proof.
  intros Hrows. unfold compose in Hrows.
  apply compose_rows_Done in Hrows as (_ & Hrel & _ & _).
  by rewrite (rows_of_key _ _ _ _ _ Hrel), sorted_stable.
Qed.

Lemma compose_keeps_ties_in_mapping_order_witness :
  Chapter_Name <$>
    filter (λ r, row_key festival_env r = ("APJ", "goa")) tied_rows
  = ["Goa"; "GOA"] ∧
  Chapter_Name <$> tied_rows = ["Fiji"; "Goa"; "GOA"] ∧
  Chapter_Name <$>
    filter (λ r, row_key festival_env r = ("EMEA", "côte d'ivoire"))
           ivoire_rows
  = ["Côte d'Ivoire"; "CÔTE D'IVOIRE"] ∧
  Chapter_Name <$> ivoire_rows = ["Côte d'Ivoire"; "CÔTE D'IVOIRE"; "Denmark"].
Proof.
  split_and!.
  - rewrite (compose_keeps_ties_in_mapping_order festival_env tied_chapters
               (init_counts tied_chapters) [] tied_rows [] ("APJ", "goa")
               eq_refl).
    reflexivity.
  - reflexivity.
  - rewrite (compose_keeps_ties_in_mapping_order festival_env ivoire_chapters
               (init_counts ivoire_chapters) [] ivoire_rows []
               ("EMEA", "côte d'ivoire") eq_refl).
    reflexivity.
  - reflexivity.
Defined.

(** ** The aggregator's two fetches *)

Lemma cf_get_all_loop_gets E fuel :
  ∀ url params items tr,
    ∃ evs, (cf_get_all_loop E fuel url params items tr).2 = tr ++ evs ∧
           Forall is_get evs.
Proof.
  induction fuel as [|fuel IH]; intros [u|] params items tr; simpl;
    try (exists []; by rewrite app_nil_r);
    destruct (truthy u); try (exists []; by rewrite app_nil_r).
  unfold mbind, M_bind.
  destruct (get_page_trace E tr u params) as (r & Htr & _).
  destruct (get_page E u params tr) as [[[d next]|e|] tr1];
    simpl in Htr; subst tr1.
  - destruct (IH next None (items ++ d) (tr ++ [EvGet u params r]))
      as (evs & Hevs & Hg).
    exists (EvGet u params r :: evs). rewrite Hevs, <- (assoc_L (++)).
    split; [done|]. by constructor.
  - exists [EvGet u params r]. split; [done|]. by constructor.
  - exists [EvGet u params r]. split; [done|]. by constructor.
Qed.

Lemma gather_entries_trace E fuel category_slug tr :
  ∃ evs, (gather_entries E fuel category_slug tr).2
         = tr ++ [EvLog INFO (MsgPulling category_slug)] ++ evs ∧
         Forall is_get evs.
Proof.
  unfold gather_entries, mbind, M_bind, logging_info, emit, cf_get_all.
  destruct (cf_get_all_loop_gets E fuel (Some (BASE_URL +:+ "/entry"))
              (Some [("category", PStr category_slug); ("per_page", PInt 100)])
              [] (tr ++ [EvLog INFO (MsgPulling category_slug)]))
    as (evs & Hevs & Hg).
  exists evs. by rewrite Hevs, <- (assoc_L (++)).
Qed.

(** X11. The aggregator announces and fetches the younger bracket first,
    and does nothing else before that fetch is over.  When a record of
    that batch is no entry (it has no chapter), the aggregator raises
    KeyError on "chapter" there and then: the older bracket is neither
    announced nor requested.  When the first batch is sound and a record
    of the second is no entry, the aggregator raises the same error after
    the second fetch; the counts of the first batch are lost with it. *)
Theorem build_counts_stops_at_a_record_without_chapter (E : Env) (fuel : nat)
    (chapters : list (string * Meta)) (tr : Trace)
    (recs13 : list Record) (tr1 : Trace) :
  gather_entries E fuel CATEGORY_13_17 tr = (Done recs13, tr1) →
  (∃ gets, tr1 = tr ++ [EvLog INFO (MsgPulling CATEGORY_13_17)] ++ gets ∧
           Forall is_get gets) ∧
  (forallb is_entry recs13 = false →
   build_counts E fuel chapters tr = (Raised (KeyError "chapter"), tr1)) ∧
  (∀ recs18 tr2,
      forallb is_entry recs13 = true →
      gather_entries E fuel CATEGORY_above18 tr1 = (Done recs18, tr2) →
      forallb is_entry recs18 = false →
      build_counts E fuel chapters tr = (Raised (KeyError "chapter"), tr2) ∧
      ∃ gets, tr2 = tr1 ++ [EvLog INFO (MsgPulling CATEGORY_above18)] ++ gets ∧
              Forall is_get gets).
Proof.
  intros H13. split_and!.
  - destruct (gather_entries_trace E fuel CATEGORY_13_17 tr) as (gets & Htr & Hg).
    rewrite H13 in Htr. by exists gets.
  - intros Hbad. unfold build_counts.
    rewrite (bind_Done _ _ _ _ _ H13).
    unfold mbind at 1, M_bind at 1. by rewrite count_entries_cases, Hbad.
  - intros recs18 tr2 Hok H18 Hbad. split.
    + by rewrite (build_counts_run _ _ _ _ _ _ _ _ H13 H18), Hok, Hbad.
    + destruct (gather_entries_trace E fuel CATEGORY_above18 tr1)
        as (gets & Htr & Hg).
      rewrite H18 in Htr. by exists gets.
Qed.

Lemma build_counts_stops_at_a_record_without_chapter_witness :
  build_counts malformed_env 1 festival_chapters [] =
    (Raised (KeyError "chapter"),
     (gather_entries malformed_env 1 CATEGORY_13_17 []).2) ∧
  length (gather_entries malformed_env 1 CATEGORY_13_17 []).2 = 2.
Proof.
  split; [|reflexivity].
  exact (proj1 (proj2 (build_counts_stops_at_a_record_without_chapter
           malformed_env 1 festival_chapters []
           [EntryRecord "A" "submitted"; ChapterRecord "A" "Brazil"]
           (gather_entries malformed_env 1 CATEGORY_13_17 []).2 eq_refl))
           eq_refl).
Defined.

(** ** The requests of a fetch, whatever its outcome *)

Lemma cf_get_all_loop_follow_ups E fuel :
  ∀ url items tr,
    ∃ evs, (cf_get_all_loop E fuel url None items tr).2 = tr ++ evs ∧
           Forall follow_up evs.
Proof.
  induction fuel as [|fuel IH]; intros [u|] items tr; simpl;
    try (exists []; by rewrite app_nil_r);
    destruct (truthy u) eqn:Hu; try (exists []; by rewrite app_nil_r).
  unfold mbind, M_bind.
  destruct (get_page_trace E tr u None) as (r & Htr & _).
  destruct (get_page E u None tr) as [[[d next]|e|] tr1];
    simpl in Htr; subst tr1.
  - destruct (IH next (items ++ d) (tr ++ [EvGet u None r]))
      as (evs & Hevs & Hf).
    exists (EvGet u None r :: evs). rewrite Hevs, <- (assoc_L (++)).
    split; [done|]. by constructor.
  - exists [EvGet u None r]. split; [done|]. by constructor.
  - exists [EvGet u None r]. split; [done|]. by constructor.
Qed.

(** X12. Whatever the outcome of a fetch (returned, raised, still running
    when the fuel ran out), all it does is issue requests: the first to
    the endpoint with the caller's query parameters, every later one to a
    non-empty URL without query parameters.  Given any fuel at all it
    issues at least one request, and never more than the fuel allows. *)
Theorem cf_get_all_requests (E : Env) (fuel : nat) (path : string)
    (params : option Params) (tr : Trace) :
  ∃ evs,
    (cf_get_all E fuel path params tr).2 = tr ++ evs ∧
    length evs ≤ fuel ∧
    match evs with
    | [] => fuel = 0
    | ev :: rest =>
        (∃ r, ev = EvGet (BASE_URL +:+ path) params r) ∧
        Forall follow_up rest
    end.
Proof.
  unfold cf_get_all. destruct fuel as [|fuel].
  { exists [].
    assert (cf_get_all_loop E 0 (Some (BASE_URL +:+ path)) params [] tr
            = (OutOfFuel, tr)) as -> by reflexivity.
    by rewrite app_nil_r. }
  rewrite cf_get_all_loop_step by apply truthy_BASE_URL.
  unfold mbind, M_bind.
  destruct (get_page_trace E tr (BASE_URL +:+ path) params) as (r & Htr & _).
  assert (Hbound : ∀ f url items t evs,
             (cf_get_all_loop E f url None items t).2 = t ++ evs →
             length evs ≤ f).
  { induction f as [|f IHf]; intros [u|] items t evs; simpl;
      try (intros H; rewrite <- (app_nil_r t) in H at 1;
           apply (inj (app _)) in H; subst evs; simpl; lia);
      destruct (truthy u);
      try (intros H; rewrite <- (app_nil_r t) in H at 1;
           apply (inj (app _)) in H; subst evs; simpl; lia).
    unfold mbind, M_bind.
    destruct (get_page_trace E t u None) as (r' & Ht & _).
    destruct (get_page E u None t) as [[[d next]|e|] t1];
      simpl in Ht; subst t1.
    - destruct (cf_get_all_loop_follow_ups E f next (items ++ d)
                  (t ++ [EvGet u None r'])) as (evs' & Hevs' & _).
      intros H. pose proof (IHf next (items ++ d) _ evs' Hevs') as Hle.
      rewrite Hevs', <- (assoc_L (++)) in H.
      apply (inj (app _)) in H. subst evs. simpl. lia.
    - simpl. intros H. apply (inj (app _)) in H. subst evs. simpl. lia.
    - simpl. intros H. apply (inj (app _)) in H. subst evs. simpl. lia. }
  destruct (get_page E (BASE_URL +:+ path) params tr)
    as [[[d next]|e|] tr1]; simpl in Htr; subst tr1.
  - destruct (cf_get_all_loop_follow_ups E fuel next ([] ++ d)
                (tr ++ [EvGet (BASE_URL +:+ path) params r]))
      as (evs & Hevs & Hf).
    exists (EvGet (BASE_URL +:+ path) params r :: evs).
    pose proof (Hbound _ _ _ _ _ Hevs) as Hle.
    rewrite Hevs, <- (assoc_L (++)).
    split_and!; [done|simpl; lia|by eexists|done].
  - exists [EvGet (BASE_URL +:+ path) params r].
    split_and!; [done|simpl; lia|by eexists|done].
  - exists [EvGet (BASE_URL +:+ path) params r].
    split_and!; [done|simpl; lia|by eexists|done].
Qed.
